(** * Differential evolution (boost/math/optimization/differential_evolution.hpp)

    A shallow embedding of [validate_differential_evolution_parameters] and
    [differential_evolution], instantiated at
    [ArgumentContainer = std::vector<double>] and [ResultType = double].

    - [double] is IEEE-754 binary64, taken from the Standard Library's
      [SpecFloat] (precision 53, emax 1024): comparisons with NaN are false,
      arithmetic rounds to nearest even and overflows to infinities.
    - [size_t] and [unsigned] are [nat]; the raw output of the generator is [N].
    - Exceptions are an explicit [outcome]; the two rejection-sampling
      [do ... while] loops carry fuel.
    - The worker threads of an evaluation phase are interleaved by an explicit
      schedule whose atomic step is one iteration of a worker's loop. An
      iteration touches only its own slot of [population] and [cost], the
      flag [target_attained], the query log (under its mutex) and the
      minimum-cost hint; the hint's unsynchronised read-then-write is the one
      effect this granularity does not follow.
    - Indexing past the end of a vector and [gen() % 0] are undefined in C++;
      here a lookup past the end yields the default ([NaN], the empty vector),
      a store past the end does nothing and [v mod 0 = v]. None of them is
      reached once validation has passed and the initializer has returned
      [NP] candidates of the dimension of the bounds. *)

From Stdlib Require Import ZArith NArith Bool Lia.
From Stdlib Require Import Floats.SpecFloat.
From stdpp Require Import base list.

Local Open Scope nat_scope.

(** ** IEEE-754 binary64 *)

Module IEEE.

Definition prec : Z := 53.
Definition emax : Z := 1024.

Abbreviation Real := spec_float.

#[export] Instance Real_inhabited : Inhabited Real := populate S754_nan.

Definition quiet_NaN : Real := S754_nan.
Definition pinf : Real := S754_infinity false.
Definition ninf : Real := S754_infinity true.

(** [Real(z)] for an integer literal [z], and [z * 2^e]. *)
Definition of_Z_exp (z e : Z) : Real := binary_normalize prec emax z e false.
Definition of_Z (z : Z) : Real := of_Z_exp z 0.

Definition zero : Real := Eval cbv in of_Z 0.
Definition one : Real := Eval cbv in of_Z 1.

Definition isnan (x : Real) : bool :=
  match x with S754_nan => true | _ => false end.

Definition isfinite (x : Real) : bool :=
  match x with S754_zero _ | S754_finite _ _ _ => true | _ => false end.

Definition flt (x y : Real) : bool := SFltb x y.
Definition fle (x y : Real) : bool := SFleb x y.
Definition fadd (x y : Real) : Real := SFadd prec emax x y.
Definition fsub (x y : Real) : Real := SFsub prec emax x y.
Definition fmul (x y : Real) : Real := SFmul prec emax x y.

(** [std::clamp(v, lo, hi)]: [(v < lo) ? lo : (hi < v) ? hi : v]. *)
Definition clamp (v lo hi : Real) : Real :=
  if flt v lo then lo else if flt hi v then hi else v.

(** *** Order facts *)

Lemma flt_nan_l y : flt quiet_NaN y = false.
Proof. reflexivity. Qed.

Lemma flt_nan_r x : flt x quiet_NaN = false.
Proof. by destruct x. Qed.

Lemma fle_nan_l y : fle quiet_NaN y = false.
Proof. reflexivity. Qed.

Lemma fle_nan_r x : fle x quiet_NaN = false.
Proof. by destruct x. Qed.

Lemma SFcompare_Some x y :
  isnan x = false → isnan y = false → ∃ c, SFcompare x y = Some c.
Proof. destruct x, y; simpl; intros; try discriminate; eauto. Qed.

Lemma SFcompare_isnan x y c :
  SFcompare x y = Some c → isnan x = false ∧ isnan y = false.
Proof. destruct x, y; simpl; intros; try discriminate; auto. Qed.

Lemma SFcompare_opp x y :
  SFcompare y x = CompOpp <$> SFcompare x y.
Proof.
  destruct x as [s1|s1| |s1 m1 e1], y as [s2|s2| |s2 m2 e2]; simpl; try done;
    try (by destruct s1); try (by destruct s2); try (by destruct s1, s2).
  destruct s1, s2; simpl; try done; f_equal;
    rewrite (Z.compare_antisym e1 e2);
    change (Pos.compare_cont Eq m2 m1) with (Pos.compare m2 m1);
    change (Pos.compare_cont Eq m1 m2) with (Pos.compare m1 m2);
    rewrite (Pos.compare_antisym m1 m2);
    by destruct (e1 ?= e2)%Z, (m1 ?= m2)%positive.
Qed.

(** Lexicographic comparison of (exponent, mantissa), as [SFcompare] does it
    for two finite numbers of the same sign. *)
Definition cmp_em (e1 : Z) (m1 : positive) (e2 : Z) (m2 : positive) : comparison :=
  match (e1 ?= e2)%Z with
  | Lt => Lt
  | Gt => Gt
  | Eq => Pos.compare_cont Eq m1 m2
  end.

Lemma cmp_em_spec e1 m1 e2 m2 :
  match cmp_em e1 m1 e2 m2 with
  | Lt => (e1 < e2)%Z ∨ (e1 = e2 ∧ (m1 < m2)%positive)
  | Eq => e1 = e2 ∧ m1 = m2
  | Gt => (e2 < e1)%Z ∨ (e1 = e2 ∧ (m2 < m1)%positive)
  end.
Proof.
  unfold cmp_em. change (Pos.compare_cont Eq m1 m2) with (Pos.compare m1 m2).
  destruct (Z.compare_spec e1 e2); auto.
  destruct (Pos.compare_spec m1 m2); auto.
Qed.

Lemma cmp_em_trans c e1 m1 e2 m2 e3 m3 :
  cmp_em e1 m1 e2 m2 = c → cmp_em e2 m2 e3 m3 = c → cmp_em e1 m1 e3 m3 = c.
Proof.
  intros H1 H2.
  pose proof (cmp_em_spec e1 m1 e2 m2) as S1.
  pose proof (cmp_em_spec e2 m2 e3 m3) as S2.
  pose proof (cmp_em_spec e1 m1 e3 m3) as S3.
  rewrite H1 in S1. rewrite H2 in S2.
  destruct c, (cmp_em e1 m1 e3 m3); try done; exfalso; lia.
Qed.

Lemma cmp_em_eq_l c e1 m1 e2 m2 e3 m3 :
  cmp_em e1 m1 e2 m2 = Eq → cmp_em e2 m2 e3 m3 = c → cmp_em e1 m1 e3 m3 = c.
Proof.
  intros H1 H2. pose proof (cmp_em_spec e1 m1 e2 m2) as S1.
  rewrite H1 in S1. destruct S1 as [-> ->]. done.
Qed.

Lemma cmp_em_eq_r c e1 m1 e2 m2 e3 m3 :
  cmp_em e1 m1 e2 m2 = c → cmp_em e2 m2 e3 m3 = Eq → cmp_em e1 m1 e3 m3 = c.
Proof.
  intros H1 H2. pose proof (cmp_em_spec e2 m2 e3 m3) as S2.
  rewrite H2 in S2. destruct S2 as [<- <-]. done.
Qed.

Lemma SFcompare_finite s1 m1 e1 s2 m2 e2 :
  SFcompare (S754_finite s1 m1 e1) (S754_finite s2 m2 e2) =
  Some match s1, s2 with
       | true, false => Lt
       | false, true => Gt
       | false, false => cmp_em e1 m1 e2 m2
       | true, true => CompOpp (cmp_em e1 m1 e2 m2)
       end.
Proof.
  unfold cmp_em. simpl. destruct s1, s2; try done.
  by destruct (e1 ?= e2)%Z.
Qed.

Lemma CompOpp_eq_iff c d : CompOpp c = d ↔ c = CompOpp d.
Proof. destruct c, d; simpl; split; congruence. Qed.

Lemma SFcompare_trans c x y z :
  SFcompare x y = Some c → SFcompare y z = Some c → SFcompare x z = Some c.
Proof.
  destruct x as [s1|s1| |s1 m1 e1], y as [s2|s2| |s2 m2 e2],
    z as [s3|s3| |s3 m3 e3];
    try (simpl; repeat match goal with s : bool |- _ => destruct s end;
         simpl; congruence).
  rewrite !SFcompare_finite. destruct s1, s2, s3; try congruence;
    intros [= H1] [= H2]; f_equal.
  - apply CompOpp_eq_iff. apply CompOpp_eq_iff in H1, H2.
    eapply cmp_em_trans; eauto.
  - eapply cmp_em_trans; eauto.
Qed.

Lemma SFcompare_eq_l c x y z :
  SFcompare x y = Some Eq → SFcompare y z = Some c → SFcompare x z = Some c.
Proof.
  destruct x as [s1|s1| |s1 m1 e1], y as [s2|s2| |s2 m2 e2],
    z as [s3|s3| |s3 m3 e3];
    try (simpl; repeat match goal with s : bool |- _ => destruct s end;
         simpl; congruence).
  rewrite !SFcompare_finite. destruct s1, s2, s3; try congruence;
    intros [= H1] [= H2]; f_equal.
  - apply CompOpp_eq_iff. apply CompOpp_eq_iff in H1, H2.
    eapply cmp_em_eq_l; eauto.
  - eapply cmp_em_eq_l; eauto.
Qed.

Lemma SFcompare_eq_r c x y z :
  SFcompare x y = Some c → SFcompare y z = Some Eq → SFcompare x z = Some c.
Proof.
  destruct x as [s1|s1| |s1 m1 e1], y as [s2|s2| |s2 m2 e2],
    z as [s3|s3| |s3 m3 e3];
    try (simpl; repeat match goal with s : bool |- _ => destruct s end;
         simpl; congruence).
  rewrite !SFcompare_finite. destruct s1, s2, s3; try congruence;
    intros [= H1] [= H2]; f_equal.
  - apply CompOpp_eq_iff. apply CompOpp_eq_iff in H1, H2.
    eapply cmp_em_eq_r; eauto.
  - eapply cmp_em_eq_r; eauto.
Qed.

Lemma SFcompare_refl x : isnan x = false → SFcompare x x = Some Eq.
Proof.
  destruct x as [s|s| |s m e]; simpl; try done; try (by destruct s).
  intros _. rewrite Z.compare_refl.
  change (Pos.compare_cont Eq m m) with (Pos.compare m m).
  rewrite Pos.compare_refl. by destruct s.
Qed.

(** The facts about [<] and [<=] the development uses. *)

Lemma flt_irrefl x : flt x x = false.
Proof.
  destruct (isnan x) eqn:E.
  - destruct x; try done.
  - unfold flt, SFltb. by rewrite SFcompare_refl.
Qed.

Lemma fle_refl x : isnan x = false → fle x x = true.
Proof. intros E. unfold fle, SFleb. by rewrite SFcompare_refl. Qed.

Lemma flt_not_nan x y : flt x y = true → isnan x = false ∧ isnan y = false.
Proof.
  unfold flt, SFltb. destruct (SFcompare x y) as [c|] eqn:E; [|done].
  intros _. eapply SFcompare_isnan; eauto.
Qed.

Lemma fle_not_nan x y : fle x y = true → isnan x = false ∧ isnan y = false.
Proof.
  unfold fle, SFleb. destruct (SFcompare x y) as [c|] eqn:E; [|done].
  intros _. eapply SFcompare_isnan; eauto.
Qed.

Lemma flt_fle x y : flt x y = true → fle x y = true.
Proof. unfold flt, fle, SFltb, SFleb. by destruct (SFcompare x y) as [[]|]. Qed.

Lemma flt_asym x y : flt x y = true → flt y x = false.
Proof.
  unfold flt, SFltb. rewrite (SFcompare_opp x y).
  by destruct (SFcompare x y) as [[]|].
Qed.

Lemma not_flt_fle x y :
  isnan x = false → isnan y = false → flt x y = false → fle y x = true.
Proof.
  intros Hx Hy. destruct (SFcompare_Some x y Hx Hy) as [c Hc].
  unfold flt, fle, SFltb, SFleb. rewrite (SFcompare_opp x y), Hc.
  by destruct c.
Qed.

Lemma fle_not_flt x y : fle x y = true → flt y x = false.
Proof.
  unfold flt, fle, SFltb, SFleb. rewrite (SFcompare_opp x y).
  by destruct (SFcompare x y) as [[]|].
Qed.

Lemma flt_trans x y z : flt x y = true → flt y z = true → flt x z = true.
Proof.
  unfold flt, SFltb.
  destruct (SFcompare x y) as [[]|] eqn:E1; try done.
  destruct (SFcompare y z) as [[]|] eqn:E2; try done.
  by rewrite (SFcompare_trans _ _ _ _ E1 E2).
Qed.

Lemma fle_trans x y z : fle x y = true → fle y z = true → fle x z = true.
Proof.
  unfold fle, SFleb.
  destruct (SFcompare x y) as [[]|] eqn:E1; try done;
    destruct (SFcompare y z) as [[]|] eqn:E2; try done; intros _ _.
  - by rewrite (SFcompare_trans _ _ _ _ E1 E2).
  - by rewrite (SFcompare_eq_l _ _ _ _ E1 E2).
  - by rewrite (SFcompare_eq_r _ _ _ _ E1 E2).
  - by rewrite (SFcompare_trans _ _ _ _ E1 E2).
Qed.

Lemma flt_fle_trans x y z : flt x y = true → fle y z = true → flt x z = true.
Proof.
  unfold flt, fle, SFltb, SFleb.
  destruct (SFcompare x y) as [[]|] eqn:E1; try done;
    destruct (SFcompare y z) as [[]|] eqn:E2; try done; intros _ _.
  - by rewrite (SFcompare_eq_r _ _ _ _ E1 E2).
  - by rewrite (SFcompare_trans _ _ _ _ E1 E2).
Qed.

Lemma fle_flt_trans x y z : fle x y = true → flt y z = true → flt x z = true.
Proof.
  unfold flt, fle, SFltb, SFleb.
  destruct (SFcompare x y) as [[]|] eqn:E1; try done;
    destruct (SFcompare y z) as [[]|] eqn:E2; try done; intros _ _.
  - by rewrite (SFcompare_eq_l _ _ _ _ E1 E2).
  - by rewrite (SFcompare_trans _ _ _ _ E1 E2).
Qed.

Lemma isfinite_not_nan x : isfinite x = true → isnan x = false.
Proof. by destruct x. Qed.

(** A number between two finite numbers is finite. *)
Lemma between_finite lo x hi :
  isfinite lo = true → isfinite hi = true →
  fle lo x = true → fle x hi = true → isfinite x = true.
Proof.
  destruct x as [s|s| |s m e]; try done.
  destruct s, lo as [sl|sl| |sl ml el], hi as [sh|sh| |sh mh eh]; try done;
    by destruct sl, sh.
Qed.

(** *** Arithmetic never invents a NaN from finite operands *)

Lemma shr_1_nonneg mrs : (0 ≤ shr_m mrs)%Z → (0 ≤ shr_m (shr_1 mrs))%Z.
Proof. destruct mrs as [[|[p|p|]|p] r s]; simpl; lia. Qed.

Lemma iter_pos_inv {A} (P : A → Prop) (f : A → A) :
  (∀ a, P a → P (f a)) → ∀ p a, P a → P (SpecFloat.iter_pos f p a).
Proof. intros Hf. induction p; simpl; auto. Qed.

Lemma shr_nonneg mrs e n : (0 ≤ shr_m mrs)%Z → (0 ≤ shr_m (shr mrs e n).1)%Z.
Proof.
  intros H. destruct n; simpl; try done.
  apply (iter_pos_inv (λ r : shr_record, (0 ≤ shr_m r)%Z)); auto using shr_1_nonneg.
Qed.

Lemma shr_fexp_nonneg m e l :
  (0 ≤ m)%Z → (0 ≤ shr_m (shr_fexp prec emax m e l).1)%Z.
Proof.
  intros H. unfold shr_fexp. apply shr_nonneg. by destruct l as [|[]].
Qed.

Lemma round_nearest_even_nonneg m l :
  (0 ≤ m)%Z → (0 ≤ round_nearest_even m l)%Z.
Proof.
  intros H. destruct l as [|[]]; simpl; try lia. destruct (Z.even m); lia.
Qed.

Lemma binary_round_aux_not_nan sx mx ex lx :
  (0 ≤ mx)%Z → isnan (binary_round_aux prec emax sx mx ex lx) = false.
Proof.
  intros H. unfold binary_round_aux.
  pose proof (shr_fexp_nonneg mx ex lx H) as H1.
  destruct (shr_fexp prec emax mx ex lx) as [mrs' e'] eqn:E1. simpl in H1.
  pose proof (shr_fexp_nonneg _ e' loc_Exact
    (round_nearest_even_nonneg _ (loc_of_shr_record mrs') H1)) as H2.
  destruct (shr_fexp prec emax _ e' loc_Exact) as [mrs'' e''] eqn:E2.
  simpl in H2. destruct (shr_m mrs'') as [|m|m]; [done| |lia].
  by destruct (Z.leb e'' _).
Qed.

Lemma binary_normalize_not_nan m e sz :
  isnan (binary_normalize prec emax m e sz) = false.
Proof.
  destruct m as [|m|m]; simpl; try done; unfold binary_round;
    destruct (shl_align _ _ _); by apply binary_round_aux_not_nan.
Qed.

Lemma fsub_not_nan x y :
  isfinite x = true → isfinite y = true → isnan (fsub x y) = false.
Proof.
  destruct x as [sx|sx| |sx mx ex], y as [sy|sy| |sy my ey]; try done; intros _ _.
  - by destruct sx, sy.
  - apply binary_normalize_not_nan.
Qed.

(** A finite non-zero factor keeps a non-NaN operand non-NaN. *)
Lemma fmul_not_nan s m e y :
  isnan y = false → isnan (fmul (S754_finite s m e) y) = false.
Proof.
  destruct y as [sy|sy| |sy my ey]; try done; intros _.
  by apply binary_round_aux_not_nan.
Qed.

Lemma fadd_not_nan x y :
  isfinite x = true → isnan y = false → isnan (fadd x y) = false.
Proof.
  destruct x as [sx|sx| |sx mx ex], y as [sy|sy| |sy my ey]; try done; intros _ _.
  - by destruct sx, sy.
  - apply binary_normalize_not_nan.
Qed.

(** [0 < F] and [F < 1] make [F] a finite non-zero number. *)
Lemma mutation_factor_shape F :
  isnan F = false → fle one F = false → fle F zero = false →
  ∃ m e, F = S754_finite false m e.
Proof.
  destruct F as [[]|[]| |[] m e]; try done. eauto.
Qed.

(** *** [std::clamp] *)

Lemma clamp_bounds v lo hi :
  isnan v = false → fle lo hi = true →
  fle lo (clamp v lo hi) = true ∧ fle (clamp v lo hi) hi = true.
Proof.
  intros Hv Hb. destruct (fle_not_nan _ _ Hb) as [Hlo Hhi]. unfold clamp.
  destruct (flt v lo) eqn:E1; [by rewrite fle_refl|].
  destruct (flt hi v) eqn:E2; [by rewrite fle_refl|].
  split; by apply not_flt_fle.
Qed.

Lemma clamp_nan lo hi : clamp quiet_NaN lo hi = quiet_NaN.
Proof. unfold clamp. by rewrite flt_nan_l, flt_nan_r. Qed.

End IEEE.

Import IEEE.

(** ** Parameters and exceptions *)

(** [std::invalid_argument] and [std::domain_error]. *)
Inductive exn := invalid_argument | domain_error.

Record differential_evolution_parameters := {
  lower_bounds : list Real;
  upper_bounds : list Real;
  mutation_factor : Real;
  crossover_probability : Real;
  NP : nat;
  max_generations : nat;
  initial_guess : option (list Real);   (* [None] is [nullptr] *)
  threads : nat
}.

Inductive outcome (A : Type) :=
| Throw (e : exn)      (* an exception leaves the call *)
| Diverge              (* a rejection-sampling loop ran out of fuel *)
| Return (a : A).
Arguments Throw {A} e.
Arguments Diverge {A}.
Arguments Return {A} a.

(** ** State shared by the worker threads *)

Inductive phase_tag := Initial | Trial.

Record state := {
  population : list (list Real);
  cost : list Real;
  target_attained : bool;
  queries : option (list (list Real * Real));   (* [None] is [nullptr] *)
  current_minimum_cost : option Real;           (* [None] is [nullptr] *)
  polls : nat;                    (* reads of [*cancellation] made so far *)
  evals : list (phase_tag * list Real)   (* ghost: every call of the cost function *)
}.

Definition at2 (pop : list (list Real)) (r j : nat) : Real := (pop !!! r) !!! j.

(** [if (current_minimum_cost && c < *current_minimum_cost) *current_minimum_cost = c] *)
Definition update_minimum (c : Real) (m : option Real) : option Real :=
  (λ cur, if flt c cur then c else cur) <$> m.

(** [if (queries) queries->push_back(make_pair(x, c))] *)
Definition push_query (x : list Real) (c : Real)
    (q : option (list (list Real * Real))) : option (list (list Real * Real)) :=
  (λ l, l ++ [(x, c)]) <$> q.

(** [!isnan(target_value) && c <= target_value] *)
Definition hits_target (target_value c : Real) : bool :=
  negb (isnan target_value) && fle c target_value.

(** [std::min_element(cost.begin(), cost.end())] as an index: a left-to-right
    scan that moves to a later element only when it compares strictly less. *)
Fixpoint min_element_from (best : nat) (bestv : Real) (i : nat) (l : list Real) : nat :=
  match l with
  | [] => best
  | x :: l' =>
      if flt x bestv then min_element_from i x (S i) l'
      else min_element_from best bestv (S i) l'
  end.

Definition min_element (l : list Real) : nat :=
  match l with
  | [] => 0
  | x :: l' => min_element_from 0 x 1 l'
  end.

(** ** Worker threads

    Worker [w] runs [for (i = w; i < cost.size(); i += threads) body(i)].
    [workers] holds, per worker, the index of its next iteration, or [None]
    once it has left its loop. A schedule is a list of worker numbers: each
    entry lets that worker run one iteration. [join] then runs every worker
    to the end of its loop. *)

Abbreviation workers := (list (option nat)).

Definition spawn (threads : nat) : workers := Some <$> seq 0 threads.

Definition step_worker (body : nat → state → bool * state) (threads w : nat)
    (c : workers * state) : workers * state :=
  let '(ws, st) := c in
  match ws !! w with
  | Some (Some i) =>
      if i <? length (cost st) then
        let '(go, st') := body i st in
        (<[w := if go then Some (i + threads) else None]> ws, st')
      else (<[w := None]> ws, st)
  | _ => c
  end.

Fixpoint run_worker (n : nat) (body : nat → state → bool * state) (threads w : nat)
    (c : workers * state) : workers * state :=
  match n with
  | 0 => c
  | S k => run_worker k body threads w (step_worker body threads w c)
  end.

Definition join (body : nat → state → bool * state) (threads : nat)
    (c : workers * state) : workers * state :=
  foldl (λ acc w, run_worker (S (length (cost c.2))) body threads w acc) c (seq 0 threads).

Definition phase (body : nat → state → bool * state) (threads : nat)
    (schedule : list nat) (st : state) : state :=
  (join body threads
     (foldl (λ acc w, step_worker body threads w acc) (spawn threads, st) schedule)).2.

(** ** The optimizer *)

Section DifferentialEvolution.

(** The uniform random bit generator [URBG &gen]: its state, and one call
    [gen()], which returns a value and advances the state. *)
Variable G : Type.
Variable gen : G → N * G.
(** [unif01(gen)] for [uniform_real_distribution<Real> unif01(0, 1)]. *)
Variable unif01 : G → Real * G.

(** From [detail/common.hpp]: both validators return the exception they
    throw, if any; the initializer draws [NP] candidates from [gen]. *)
Variable validate_bounds : list Real → list Real → option exn.
Variable validate_initial_guess : list Real → list Real → list Real → option exn.
Variable random_initial_population :
  list Real → list Real → nat → G → list (list Real) * G.

Definition validate_differential_evolution_parameters
    (de_params : differential_evolution_parameters) : option exn :=
  match validate_bounds (lower_bounds de_params) (upper_bounds de_params) with
  | Some e => Some e
  | None =>
    if NP de_params <? 4 then Some invalid_argument else
    let F := mutation_factor de_params in
    if isnan F || fle one F || fle F zero then Some domain_error else
    if max_generations de_params <? 1 then Some invalid_argument else
    match
      match initial_guess de_params with
      | Some x0 =>
          validate_initial_guess x0 (lower_bounds de_params) (upper_bounds de_params)
      | None => None
      end
    with
    | Some e => Some e
    | None => if threads de_params =? 0 then Some invalid_argument else None
    end
  end.

Variable cost_function : list Real → Real.
Variable de_params : differential_evolution_parameters.
Variable target_value : Real.
(** [None] is [nullptr]; otherwise the value the [k]-th read of
    [*cancellation] observes. *)
Variable cancellation : option (nat → bool).

(** One iteration of a worker's loop in the initial scoring phase. *)
Definition initial_iteration (i : nat) (st : state) : bool * state :=
  let x := population st !!! i in
  let c := cost_function x in
  (true,
   {| population := population st;
      cost := <[i := c]> (cost st);
      target_attained := target_attained st || hits_target target_value c;
      queries := push_query x c (queries st);
      current_minimum_cost := update_minimum c (current_minimum_cost st);
      polls := polls st;
      evals := evals st ++ [(Initial, x)] |}).

(** [cancellation && *cancellation] *)
Definition poll_cancellation (st : state) : bool * state :=
  match cancellation with
  | None => (false, st)
  | Some observed =>
      (observed (polls st),
       {| population := population st; cost := cost st;
          target_attained := target_attained st; queries := queries st;
          current_minimum_cost := current_minimum_cost st;
          polls := S (polls st); evals := evals st |})
  end.

(** Evaluation of the trial at slot [i] and selection against its parent. *)
Definition select (trial_vectors : list (list Real)) (i : nat) (st : state) : state :=
  let t := trial_vectors !!! i in
  let trial_cost := cost_function t in
  let ev := evals st ++ [(Trial, t)] in
  if isnan trial_cost then
    {| population := population st; cost := cost st;
       target_attained := target_attained st; queries := queries st;
       current_minimum_cost := current_minimum_cost st;
       polls := polls st; evals := ev |}
  else
    let q := push_query t trial_cost (queries st) in
    if flt trial_cost (cost st !!! i) || isnan (cost st !!! i) then
      {| population := <[i := t]> (population st);
         cost := <[i := trial_cost]> (cost st);
         target_attained := target_attained st || hits_target target_value trial_cost;
         queries := q;
         current_minimum_cost := update_minimum trial_cost (current_minimum_cost st);
         polls := polls st; evals := ev |}
    else
      {| population := population st; cost := cost st;
         target_attained := target_attained st; queries := q;
         current_minimum_cost := current_minimum_cost st;
         polls := polls st; evals := ev |}.

(** One iteration of a worker's loop in a trial phase; [false] is [return]. *)
Definition trial_iteration (trial_vectors : list (list Real)) (i : nat)
    (st : state) : bool * state :=
  if target_attained st then (false, st) else
  let '(cancelled, st1) := poll_cancellation st in
  if cancelled then (false, st1) else (true, select trial_vectors i st1).

(** [do { r = gen() % NP; } while (excluded r);] *)
Fixpoint draw_index (fuel : nat) (excluded : nat → bool) (g : G) : option (nat * G) :=
  match fuel with
  | 0 => None
  | S k =>
      let '(v, g') := gen g in
      let r := N.to_nat (v mod N.of_nat (NP de_params)) in
      if excluded r then draw_index k excluded g' else Some (r, g')
  end.

Definition draw_r123 (fuel i : nat) (g : G) : option (nat * nat * nat * G) :=
  '(r1, g1) ← draw_index fuel (λ r, r =? i) g;
  '(r2, g2) ← draw_index fuel (λ r, (r =? i) || (r =? r1)) g1;
  '(r3, g3) ← draw_index fuel (λ r, (r =? i) || (r =? r2) || (r =? r1)) g2;
  Some (r1, r2, r3, g3).

(** The loop over the dimensions [js] that fills [trial_vectors[i]]. *)
Fixpoint crossover (pop : list (list Real)) (i r1 r2 r3 : nat) (js : list nat)
    (g : G) : list Real * G :=
  match js with
  | [] => ([], g)
  | j :: js' =>
      let '(v, g1) := gen g in
      let guaranteed_changed_idx :=
        N.to_nat (v mod N.of_nat (length (lower_bounds de_params))) in
      let '(u, g2) := unif01 g1 in
      let x :=
        if flt u (crossover_probability de_params) || (j =? guaranteed_changed_idx)
        then
          let tmp := fadd (at2 pop r1 j)
                       (fmul (mutation_factor de_params)
                          (fsub (at2 pop r2 j) (at2 pop r3 j))) in
          clamp tmp (lower_bounds de_params !!! j) (upper_bounds de_params !!! j)
        else at2 pop i j in
      let '(rest, g3) := crossover pop i r1 r2 r3 js' g2 in
      (x :: rest, g3)
  end.

(** The loop over the slots [slots] that fills [trial_vectors]. *)
Fixpoint make_trials (fuel : nat) (pop : list (list Real)) (slots : list nat)
    (g : G) : option (list (list Real) * G) :=
  match slots with
  | [] => Some ([], g)
  | i :: slots' =>
      '(r1, r2, r3, g1) ← draw_r123 fuel i g;
      let '(t, g2) :=
        crossover pop i r1 r2 r3 (seq 0 (length (lower_bounds de_params))) g1 in
      '(ts, g3) ← make_trials fuel pop slots' g2;
      Some (t :: ts, g3)
  end.

(** What a run leaves behind: the shared state, the generator, and (ghost)
    the [trial_vectors] of every generation, oldest first. *)
Record run := {
  final : state;
  rng : G;
  trials : list (list (list Real))
}.

(** The generation loop; [n] generations remain, [generation] is the loop
    counter, [schedule k] interleaves the workers of evaluation phase [k]
    (phase 0 is the initial scoring). The flag is [false] on divergence. *)
Fixpoint generations (fuel : nat) (schedule : nat → list nat) (n generation : nat)
    (r : run) : bool * run :=
  match n with
  | 0 => (true, r)
  | S n' =>
      let '(cancelled, st1) := poll_cancellation (final r) in
      if cancelled then (true, {| final := st1; rng := rng r; trials := trials r |})
      else if target_attained st1
      then (true, {| final := st1; rng := rng r; trials := trials r |})
      else
        match make_trials fuel (population st1) (seq 0 (NP de_params)) (rng r) with
        | None => (false, {| final := st1; rng := rng r; trials := trials r |})
        | Some (trial_vectors, g') =>
            let st2 := phase (trial_iteration trial_vectors) (threads de_params)
                         (schedule (S generation)) st1 in
            generations fuel schedule n' (S generation)
              {| final := st2; rng := g'; trials := trials r ++ [trial_vectors] |}
        end
  end.

Definition differential_evolution_run (fuel : nat) (schedule : nat → list nat)
    (g : G) (q : option (list (list Real * Real))) (cmc : option Real)
    : outcome (list Real) * run :=
  match validate_differential_evolution_parameters de_params with
  | Some e =>
      (Throw e,
       {| final := {| population := []; cost := []; target_attained := false;
                      queries := q; current_minimum_cost := cmc;
                      polls := 0; evals := [] |};
          rng := g; trials := [] |})
  | None =>
      let '(pop0, g0) :=
        random_initial_population (lower_bounds de_params) (upper_bounds de_params)
          (NP de_params) g in
      let pop := match initial_guess de_params with
                 | Some x0 => <[0 := x0]> pop0
                 | None => pop0
                 end in
      let st0 := {| population := pop;
                    cost := replicate (NP de_params) quiet_NaN;
                    target_attained := false;
                    queries := q; current_minimum_cost := cmc;
                    polls := 0; evals := [] |} in
      let st1 := phase initial_iteration (threads de_params) (schedule 0) st0 in
      let '(finished, r) :=
        generations fuel schedule (max_generations de_params) 0
          {| final := st1; rng := g0; trials := [] |} in
      (if finished
       then Return (population (final r) !!! min_element (cost (final r)))
       else Diverge, r)
  end.

Definition differential_evolution (fuel : nat) (schedule : nat → list nat)
    (g : G) (q : option (list (list Real * Real))) (cmc : option Real)
    : outcome (list Real) :=
  (differential_evolution_run fuel schedule g q cmc).1.

End DifferentialEvolution.

Arguments final {G} r.
Arguments rng {G} r.
Arguments trials {G} r.

(** ** Generators *)

(** The [k]-th next output of the generator. *)
Fixpoint draws {G : Type} (gen : G → N * G) (k : nat) (g : G) : N * G :=
  match k with
  | 0 => gen g
  | S k' => draws gen k' (gen g).2
  end.

(** From every state, every residue modulo [n] shows up after finitely many
    calls. *)
Definition fair {G : Type} (gen : G → N * G) (n : nat) : Prop :=
  ∀ g r, r < n → ∃ k, N.to_nat ((draws gen k g).1 mod N.of_nat n) = r.

(** ** Collaborators used to run the optimizer on concrete inputs *)

Module Sample.

Section Generator.
Variable G : Type.
Variable gen : G → N * G.

(** [unif01(gen)] from one 32-bit output: [v / 2^32], a double in [0, 1). *)
Definition unif01 (g : G) : Real * G :=
  let '(v, g') := gen g in
  (of_Z_exp (Z.of_N (v mod 2 ^ 32)) (-32), g').

(** Modelled from the spec: [detail::random_initial_population] of
    [detail/common.hpp], "NP candidates with every coordinate independently
    drawn uniformly within [lower[j], upper[j]]": coordinate [j] is
    [lower[j] + u * (upper[j] - lower[j])] for a fresh [u = unif01(gen)]. *)
Fixpoint random_candidate (bounds : list (Real * Real)) (g : G) : list Real * G :=
  match bounds with
  | [] => ([], g)
  | (l, u) :: bounds' =>
      let '(t, g1) := unif01 g in
      let '(rest, g2) := random_candidate bounds' g1 in
      (fadd l (fmul t (fsub u l)) :: rest, g2)
  end.

Fixpoint random_initial_population (lo hi : list Real) (n : nat) (g : G)
    : list (list Real) * G :=
  match n with
  | 0 => ([], g)
  | S n' =>
      let '(x, g1) := random_candidate (zip lo hi) g in
      let '(rest, g2) := random_initial_population lo hi n' g1 in
      (x :: rest, g2)
  end.
End Generator.

(** Modelled from the spec: [detail::validate_bounds] of
    [detail/common.hpp], which rejects "malformed bounds (lower >= upper on
    some dimension, or mismatched lengths)" with a configuration error. *)
Definition validate_bounds (lo hi : list Real) : option exn :=
  if negb (length lo =? length hi) then Some domain_error
  else if existsb (λ b, fle b.2 b.1) (zip lo hi) then Some domain_error
  else None.

(** Modelled from the spec: [detail::validate_initial_guess] of
    [detail/common.hpp], which rejects "an initial guess whose dimension or
    bound-containment is violated" with a configuration error. *)
Definition validate_initial_guess (x0 lo hi : list Real) : option exn :=
  if negb (length x0 =? length lo) then Some domain_error
  else if forallb (λ c, fle c.1.1 c.2 && fle c.2 c.1.2) (zip (zip lo hi) x0)
  then None else Some domain_error.

Definition run_de (G : Type) (gen : G → N * G) :=
  differential_evolution_run G gen (unif01 G gen)
    validate_bounds validate_initial_guess (random_initial_population G gen).

End Sample.

(** A generator that replays a recorded tape of raw outputs, then zeros. *)
Module Replay.

Definition G : Type := list N.

Definition gen (g : G) : N * G :=
  match g with
  | [] => (0%N, [])
  | v :: g' => (v, g')
  end.

Definition run_de := Sample.run_de G gen.

End Replay.

(** A generator that counts upwards. *)
Module Counter.

Definition G : Type := N.

Definition gen (g : G) : N * G := (g, N.succ g).

Definition run_de := Sample.run_de G gen.

Lemma draws_gen k g :
  draws gen k g = ((g + N.of_nat k)%N, N.succ (g + N.of_nat k)).
Proof.
  revert g. induction k as [|k IH]; intros g; simpl.
  - by rewrite N.add_0_r.
  - rewrite IH. simpl. f_equal; [|f_equal]; lia.
Qed.

Lemma gen_fair n : fair gen n.
Proof.
  intros g r Hr. exists (r + n - N.to_nat g mod n). rewrite draws_gen. simpl.
  rewrite N2Nat.inj_mod, N2Nat.inj_add, !Nat2N.id. symmetry.
  apply (Nat.mod_unique _ _ (N.to_nat g / n + 1)); [done|].
  pose proof (Nat.div_mod_eq (N.to_nat g) n).
  pose proof (Nat.mod_upper_bound (N.to_nat g) n). nia.
Qed.

End Counter.

(** ** Selection (C1) *)

(** When the code lets the trial take the slot. *)
Definition accepts (trial_cost c : Real) : bool :=
  negb (isnan trial_cost) && (flt trial_cost c || isnan c).

(** The same with "finite" in place of "not NaN". *)
Definition accepts_if_finite (trial_cost c : Real) : bool :=
  isfinite trial_cost && (flt trial_cost c || isnan c).

(** Slot [i] is replaced by the trial exactly when [accept] says so; otherwise
    population and costs stay as they were. *)
Definition selection_rule (accept : Real → Real → bool)
    (cost_function : list Real → Real) (target_value : Real)
    (trial_vectors : list (list Real)) (i : nat) (st : state) : Prop :=
  let t := trial_vectors !!! i in
  let st' := select cost_function target_value trial_vectors i st in
  if accept (cost_function t) (cost st !!! i)
  then population st' = <[i := t]> (population st) ∧
       cost st' = <[i := cost_function t]> (cost st)
  else population st' = population st ∧ cost st' = cost st.

Lemma select_follows_rule cost_function target_value trial_vectors i st :
  selection_rule accepts cost_function target_value trial_vectors i st.
Proof.
  unfold selection_rule, accepts, select.
  destruct (isnan (cost_function (trial_vectors !!! i))); simpl; [done|].
  by destruct (flt _ _ || isnan _).
Qed.

(** C1 (amended): at every slot [i] of every selection step the trial replaces
    the parent if and only if its cost is not NaN and (it is strictly less than
    [cost[i]] or [cost[i]] is NaN); otherwise, in particular for a NaN trial
    cost, parent and [cost[i]] are unchanged. Selection raises nothing: [select]
    is a total function into [state]. *)
Theorem selection_replaces_iff_not_nan cost_function target_value trial_vectors i st :
  selection_rule accepts cost_function target_value trial_vectors i st.
Proof. apply select_follows_rule. Qed.

(** C1 as stated fails: a trial of cost -infinity is not finite, yet it
    replaces a parent of cost 1. *)
Lemma selection_infinite_trial_replaces :
  ¬ selection_rule accepts_if_finite (λ _, ninf) quiet_NaN [[zero]] 0
      {| population := [[one]]; cost := [one]; target_attained := false;
         queries := None; current_minimum_cost := None; polls := 0; evals := [] |}.
Proof. unfold selection_rule. simpl. intros [H _]. discriminate H. Qed.

(** ** Validation (C5, C10) *)

Definition with_crossover_probability (p : differential_evolution_parameters)
    (cr : Real) : differential_evolution_parameters :=
  {| lower_bounds := lower_bounds p; upper_bounds := upper_bounds p;
     mutation_factor := mutation_factor p; crossover_probability := cr;
     NP := NP p; max_generations := max_generations p;
     initial_guess := initial_guess p; threads := threads p |}.

(** C10: validation does not look at the crossover probability, whatever its
    value (NaN, infinite, outside [0,1]): the verdict is the same, so a
    parameter set that passes keeps passing; and that value is the one compared
    with the uniform draw in each dimension of the crossover loop. *)
Theorem crossover_probability_not_validated
    G gen unif01 validate_bounds validate_initial_guess p cr :
  validate_differential_evolution_parameters validate_bounds validate_initial_guess
    (with_crossover_probability p cr) =
  validate_differential_evolution_parameters validate_bounds validate_initial_guess p
  ∧ ∀ pop i r1 r2 r3 j js (g : G),
      let '(v, g1) := gen g in
      let '(u, _) := unif01 g1 in
      head (crossover G gen unif01 (with_crossover_probability p cr)
              pop i r1 r2 r3 (j :: js) g).1 =
      Some (if flt u cr || (j =? N.to_nat (v mod N.of_nat (length (lower_bounds p))))
            then clamp (fadd (at2 pop r1 j)
                          (fmul (mutation_factor p) (fsub (at2 pop r2 j) (at2 pop r3 j))))
                   (lower_bounds p !!! j) (upper_bounds p !!! j)
            else at2 pop i j).
Proof.
  split; [done|]. intros pop i r1 r2 r3 j js g. simpl.
  destruct (gen g) as [v g1]. destruct (unif01 g1) as [u g2].
  by destruct (crossover _ _ _ _ _ _ _ _ _ _ _).
Qed.

(** What the spec calls a configuration error. *)
Definition rejected (validate_bounds : list Real → list Real → option exn)
    (validate_initial_guess : list Real → list Real → list Real → option exn)
    (p : differential_evolution_parameters) : Prop :=
  validate_bounds (lower_bounds p) (upper_bounds p) ≠ None
  ∨ NP p < 4
  ∨ isnan (mutation_factor p) = true
  ∨ fle (mutation_factor p) zero = true
  ∨ fle one (mutation_factor p) = true
  ∨ max_generations p < 1
  ∨ threads p = 0
  ∨ ∃ x0, initial_guess p = Some x0 ∧
          validate_initial_guess x0 (lower_bounds p) (upper_bounds p) ≠ None.

Lemma validate_rejected validate_bounds validate_initial_guess p :
  rejected validate_bounds validate_initial_guess p ↔
  validate_differential_evolution_parameters validate_bounds validate_initial_guess p
    ≠ None.
Proof.
  unfold rejected, validate_differential_evolution_parameters.
  destruct (validate_bounds _ _) as [e|] eqn:Eb; [split; [done|auto]|].
  destruct (Nat.ltb_spec (NP p) 4) as [HNP|HNP]; [split; [done|auto]|].
  destruct (isnan (mutation_factor p)) eqn:En; [split; [done|auto]|].
  destruct (fle one (mutation_factor p)) eqn:E1; [split; [done|auto 10]|].
  destruct (fle (mutation_factor p) zero) eqn:E0; [split; [done|auto 10]|]. simpl.
  destruct (Nat.ltb_spec (max_generations p) 1) as [Hg|Hg]; [split; [done|auto 10]|].
  destruct (initial_guess p) as [x0|] eqn:Ei.
  - destruct (validate_initial_guess x0 _ _) as [e|] eqn:Ev.
    { split; [done|]. intros _. do 7 right. exists x0. by rewrite Ev. }
    destruct (Nat.eqb_spec (threads p) 0) as [Ht|Ht]; [split; [done|auto 10]|].
    split; [|done].
    intros [?|[?|[?|[?|[?|[?|[?|(y&?&?)]]]]]]]; try done; try lia. congruence.
  - destruct (Nat.eqb_spec (threads p) 0) as [Ht|Ht]; [split; [done|auto 10]|].
    split; [|done].
    intros [?|[?|[?|[?|[?|[?|[?|(y&?&?)]]]]]]]; try done; lia.
Qed.

(** C5: a rejected parameter set (malformed bounds, NP < 4, F NaN or outside
    (0,1), no generation, no thread, invalid initial guess) makes
    [differential_evolution] throw before anything else happens: the cost
    function has not been called, the generator, the query log and the
    minimum-cost hint are untouched, and no population exists. *)
Theorem configuration_error_before_any_evaluation
    G gen unif01 validate_bounds validate_initial_guess random_initial_population
    cost_function p target_value cancellation fuel schedule g q cmc :
  rejected validate_bounds validate_initial_guess p →
  ∃ e,
    differential_evolution_run G gen unif01 validate_bounds validate_initial_guess
      random_initial_population cost_function p target_value cancellation
      fuel schedule g q cmc =
    (Throw e,
     {| final := {| population := []; cost := []; target_attained := false;
                    queries := q; current_minimum_cost := cmc;
                    polls := 0; evals := [] |};
        rng := g; trials := [] |}).
Proof.
  intros H%validate_rejected. unfold differential_evolution_run.
  destruct (validate_differential_evolution_parameters _ _ _) as [e|]; [eauto|done].
Qed.

Lemma configuration_error_NP3 :
  let p := {| lower_bounds := [of_Z 0]; upper_bounds := [of_Z 4];
              mutation_factor := of_Z_exp 1 (-1);
              crossover_probability := of_Z_exp 1 (-1);
              NP := 3; max_generations := 10; initial_guess := None;
              threads := 1 |} in
  rejected Sample.validate_bounds Sample.validate_initial_guess p ∧
  ∃ e,
    Replay.run_de (λ x, x !!! 0) p quiet_NaN None 8 (λ _, []) [1%N; 2%N] (Some []) None =
    (Throw e,
     {| final := {| population := []; cost := []; target_attained := false;
                    queries := Some []; current_minimum_cost := None;
                    polls := 0; evals := [] |};
        rng := [1%N; 2%N]; trials := [] |}).
Proof.
  assert (3 < 4) as H by lia. split.
  - right. left. exact H.
  - apply configuration_error_before_any_evaluation. right. left. exact H.
Defined.

(** F = 0 and F = 1 are among the rejected values. *)
Lemma mutation_factor_zero_one_rejected validate_bounds validate_initial_guess p :
  mutation_factor p = zero ∨ mutation_factor p = one →
  rejected validate_bounds validate_initial_guess p.
Proof. intros [H|H]; unfold rejected; rewrite H; simpl; auto 10. Qed.

(** ** Crossover (C2) *)

(** Sum of squares. *)
Definition sum_of_squares (x : list Real) : Real :=
  foldr (λ v acc, fadd (fmul v v) acc) zero x.

(** [k / 8] as a raw 32-bit output, for [Sample.unif01]. *)
Definition eighth (k : Z) : N := Z.to_N (k * 2 ^ 29).

(** Two dimensions on [0,8]^2, F = CR = 1/2, four candidates, one generation.
    The tape first yields the population [0,1], [2,3], [4,5], [6,7]; then, for
    each slot, r1, r2, r3 and per dimension the "guaranteed" index and the
    uniform draw. For slot 0: r = 1, 2, 3; at j = 0 the index drawn is 1 and
    u = 1/2; at j = 1 the index drawn is 0 and u = 1/2. *)
Definition params_2d : differential_evolution_parameters :=
  {| lower_bounds := [of_Z 0; of_Z 0]; upper_bounds := [of_Z 8; of_Z 8];
     mutation_factor := of_Z_exp 1 (-1); crossover_probability := of_Z_exp 1 (-1);
     NP := 4; max_generations := 1; initial_guess := None; threads := 1 |}.

Definition tape_2d : list N :=
  [eighth 0; eighth 1; eighth 2; eighth 3; eighth 4; eighth 5; eighth 6; eighth 7;
   1; 2; 3;  1; eighth 4; 0; eighth 4;
   0; 2; 3;  0; eighth 4; 1; eighth 4;
   0; 1; 3;  0; eighth 0; 0; eighth 0;
   0; 1; 2;  0; eighth 0; 0; eighth 0]%N.

(** C2, the code at a failing input: the index [guaranteed_changed_idx] is
    drawn afresh inside the loop over [j], so it can miss every [j]; here the
    trial vector of slot 0 is its parent [0, 1] in both dimensions, although
    the mutant [1, 2] differs from the parent in both. *)
Theorem trial_vector_equal_to_parent :
  let pop := (Sample.random_initial_population Replay.G Replay.gen (lower_bounds params_2d)
                (upper_bounds params_2d) 4 tape_2d).1 in
  let r := (Replay.run_de sum_of_squares params_2d quiet_NaN None 1 (λ _, [])
              tape_2d None None).2 in
  pop !! 0 = Some [of_Z 0; of_Z 1] ∧
  (head (trials r) ≫= (.!! 0)) = Some [of_Z 0; of_Z 1] ∧
  fadd (at2 pop 1 0) (fmul (mutation_factor params_2d) (fsub (at2 pop 2 0) (at2 pop 3 0)))
    = of_Z 1 ∧
  fadd (at2 pop 1 1) (fmul (mutation_factor params_2d) (fsub (at2 pop 2 1) (at2 pop 3 1)))
    = of_Z 2.
Proof. vm_compute. done. Qed.

(** ** The returned slot (C4) *)

(** [sqrt(x[0] - 1)]: NaN below 1. *)
Definition sqrt_shifted (x : list Real) : Real :=
  SFsqrt prec emax (fsub (x !!! 0) one).

Definition params_1d : differential_evolution_parameters :=
  {| lower_bounds := [of_Z 0]; upper_bounds := [of_Z 8];
     mutation_factor := of_Z_exp 1 (-1); crossover_probability := of_Z_exp 1 (-1);
     NP := 4; max_generations := 1; initial_guess := None; threads := 2 |}.

Definition params_1d_guess : differential_evolution_parameters :=
  {| lower_bounds := [of_Z 0]; upper_bounds := [of_Z 8];
     mutation_factor := of_Z_exp 1 (-1); crossover_probability := of_Z_exp 1 (-1);
     NP := 4; max_generations := 1; initial_guess := Some [of_Z 0]; threads := 2 |}.

(** C4, the code at a failing input: the initial guess [0] costs NaN; the
    population is [0], [1], [2], [3] and the costs after the initial phase are
    NaN, 0, 1, sqrt 2. The target 1 is attained, the loop is left at once, and
    the scan returns slot 0, whose cost is NaN, although slot 1 has cost 0:
    nothing compares less than NaN. *)
Theorem min_element_returns_nan_slot :
  let '(out, r) :=
    Replay.run_de sqrt_shifted params_1d_guess one None 1 (λ _, [])
      [eighth 5; eighth 1; eighth 2; eighth 3]%N None None in
  out = Return [of_Z 0] ∧
  cost (final r) = [quiet_NaN; of_Z 0; of_Z 1; SFsqrt prec emax (of_Z 2)] ∧
  min_element (cost (final r)) = 0 ∧
  population (final r) !! 1 = Some [of_Z 1].
Proof. vm_compute. done. Qed.

(** ** Evaluation phases preserve invariants of the shared state *)

Section PhaseInvariant.
Variable I : state → Prop.
Variable body : nat → state → bool * state.
Variable threads : nat.
Hypothesis body_preserves : ∀ i st, I st → I (body i st).2.

Lemma step_worker_invariant w c : I c.2 → I (step_worker body threads w c).2.
Proof using body_preserves.
  destruct c as [ws st]. unfold step_worker. simpl. intros H.
  destruct (ws !! w) as [[i|]|]; try done.
  destruct (i <? length (cost st)); try done.
  specialize (body_preserves i st H). by destruct (body i st).
Qed.

Lemma run_worker_invariant n w c : I c.2 → I (run_worker n body threads w c).2.
Proof using body_preserves.
  revert c. induction n as [|n IH]; intros c H; simpl; [done|].
  by apply IH, step_worker_invariant.
Qed.

Lemma foldl_invariant (step : workers * state → nat → workers * state) l c :
  (∀ c w, I c.2 → I (step c w).2) → I c.2 → I (foldl step c l).2.
Proof.
  intros Hstep. revert c. induction l as [|w l IH]; intros c H; simpl; [done|].
  by apply IH, Hstep.
Qed.

Lemma phase_invariant schedule st : I st → I (phase body threads schedule st).
Proof using body_preserves.
  intros H. unfold phase, join. apply foldl_invariant.
  { intros c w. apply run_worker_invariant. }
  apply foldl_invariant; [|done]. intros c w. apply step_worker_invariant.
Qed.
End PhaseInvariant.

(** ** The scan for the minimum *)

(** Slot [k] holds a number that no other number of [l] is less than, and
    every earlier number is strictly greater. *)
Definition least_at (l : list Real) (k : nat) : Prop :=
  ∃ m, l !! k = Some m ∧ isnan m = false
       ∧ (∀ j x, l !! j = Some x → isnan x = false → fle m x = true)
       ∧ (∀ j x, j < k → l !! j = Some x → isnan x = true ∨ flt m x = true).

Lemma min_element_from_least pre l best :
  least_at pre best →
  least_at (pre ++ l) (min_element_from best (pre !!! best) (length pre) l).
Proof.
  revert pre best. induction l as [|x l IH]; intros pre best H; simpl.
  { by rewrite app_nil_r. }
  destruct H as (m & Hm & Hnan & Hle & Hlt).
  rewrite (list_lookup_total_correct _ _ _ Hm).
  assert (best < length pre) as Hbest by (by eapply lookup_lt_Some).
  assert ((pre ++ [x]) !! length pre = Some x) as Hlast
    by (by rewrite lookup_app_r, Nat.sub_diag by lia).
  assert (∀ k, least_at (pre ++ [x]) k →
            least_at (pre ++ x :: l)
              (min_element_from k ((pre ++ [x]) !!! k) (S (length pre)) l)) as Hnext.
  { intros k Hk. specialize (IH _ _ Hk).
    rewrite length_app, <- app_assoc in IH. simpl in IH.
    by rewrite Nat.add_1_r in IH. }
  destruct (flt x m) eqn:E.
  - specialize (Hnext (length pre)).
    rewrite (list_lookup_total_correct _ _ _ Hlast) in Hnext.
    apply Hnext. exists x. destruct (flt_not_nan _ _ E) as [Hx _].
    split; [done|]. split; [done|]. split.
    + intros j y Hj Hy. destruct (decide (j < length pre)) as [Hlt'|Hge].
      * rewrite lookup_app_l in Hj by done.
        apply flt_fle. eapply flt_fle_trans; eauto.
      * rewrite lookup_app_r in Hj by lia.
        destruct (j - length pre) as [|n]; simpl in Hj; [|done].
        simplify_eq. by apply fle_refl.
    + intros j y Hj Hy. rewrite lookup_app_l in Hy by done.
      destruct (isnan y) eqn:Ey; [by left|right].
      eapply flt_fle_trans; eauto.
  - assert ((pre ++ [x]) !! best = Some m) as Hkeep by (by rewrite lookup_app_l).
    specialize (Hnext best).
    rewrite (list_lookup_total_correct _ _ _ Hkeep) in Hnext.
    apply Hnext. exists m. split; [done|]. split; [done|]. split.
    + intros j y Hj Hy. destruct (decide (j < length pre)) as [Hlt'|Hge].
      * rewrite lookup_app_l in Hj by done. eauto.
      * rewrite lookup_app_r in Hj by lia.
        destruct (j - length pre) as [|n]; simpl in Hj; [|done].
        simplify_eq. by apply not_flt_fle.
    + intros j y Hj Hy. rewrite lookup_app_l in Hy by lia. eauto.
Qed.

(** With a first cost that is not NaN, the scan returns the lowest index of a
    least cost among those that are not NaN. *)
Lemma min_element_least x l :
  isnan x = false → least_at (x :: l) (min_element (x :: l)).
Proof.
  intros Hx. apply (min_element_from_least [x] l 0).
  exists x. split; [done|]. split; [done|]. split.
  - intros [|j] y Hj Hy; [|done]. simplify_eq/=. by apply fle_refl.
  - intros j y Hj. lia.
Qed.

Lemma min_element_from_nan best i l : min_element_from best quiet_NaN i l = best.
Proof.
  revert i. induction l as [|x l IH]; intros i; simpl; [done|].
  by rewrite flt_nan_r.
Qed.

(** With a first cost that is NaN, the scan returns slot 0. *)
Lemma min_element_nan_head l : min_element (quiet_NaN :: l) = 0.
Proof. apply min_element_from_nan. Qed.

(** ** Costs never get worse (C7) *)

(** A cost either stays, or strictly decreases, or is the first number to
    replace the NaN sentinel. *)
Definition improves (old new : Real) : Prop :=
  new = old ∨ flt new old = true ∨ (isnan old = true ∧ isnan new = false).

Lemma improves_refl c : improves c c.
Proof. by left. Qed.

Lemma improves_trans a b c : improves a b → improves b c → improves a c.
Proof.
  intros [->|[H1|[H1 H1']]] [->|[H2|[H2 H2']]]; unfold improves; auto;
    try (destruct (flt_not_nan _ _ H1)); try (destruct (flt_not_nan _ _ H2));
    try congruence; eauto using flt_trans.
Qed.

Lemma improves_not_greater old new : improves old new → flt old new = false.
Proof.
  intros [->|[H|[H _]]].
  - apply flt_irrefl.
  - by apply flt_asym.
  - destruct old; try done.
Qed.

Lemma improves_le old new : improves old new → isnan old = false → fle new old = true.
Proof.
  intros [->|[H|[H _]]] Hold.
  - by apply fle_refl.
  - by apply flt_fle.
  - congruence.
Qed.

Lemma improves_not_nan old new : improves old new → isnan old = false → isnan new = false.
Proof. intros H Hold. by destruct (fle_not_nan _ _ (improves_le _ _ H Hold)). Qed.

Definition costs_improve (st st' : state) : Prop :=
  length (cost st') = length (cost st) ∧
  ∀ i, improves (cost st !!! i) (cost st' !!! i).

Lemma costs_improve_same st st' : cost st' = cost st → costs_improve st st'.
Proof. intros E. unfold costs_improve. rewrite E. split; [done|]. by left. Qed.

Lemma costs_improve_refl st : costs_improve st st.
Proof. by apply costs_improve_same. Qed.

Lemma costs_improve_trans a b c :
  costs_improve a b → costs_improve b c → costs_improve a c.
Proof.
  intros [L1 H1] [L2 H2]. split; [congruence|].
  intros i. eapply improves_trans; eauto.
Qed.

Lemma select_costs_improve cost_function target_value trial_vectors i st :
  costs_improve st (select cost_function target_value trial_vectors i st).
Proof.
  unfold select.
  destruct (isnan (cost_function (trial_vectors !!! i))) eqn:En;
    [by apply costs_improve_same|].
  destruct (flt _ _ || isnan _) eqn:Ea; [|by apply costs_improve_same].
  split; simpl; [by rewrite length_insert|]. intros k.
  rewrite list_lookup_total_insert. case_decide as Hk; [|apply improves_refl].
  destruct Hk as [<- _]. apply orb_true_iff in Ea as [Ea|Ea]; unfold improves; auto.
Qed.

Lemma trial_iteration_costs_improve
    cost_function target_value cancellation trial_vectors i st :
  costs_improve st
    (trial_iteration cost_function target_value cancellation trial_vectors i st).2.
Proof.
  unfold trial_iteration. destruct (target_attained st); [apply costs_improve_refl|].
  unfold poll_cancellation.
  destruct cancellation as [observed|]; [destruct (observed _)|]; simpl;
    try (by apply costs_improve_same);
    (eapply costs_improve_trans; [|apply select_costs_improve]);
    by apply costs_improve_same.
Qed.

Lemma trial_phase_costs_improve
    cost_function target_value cancellation trial_vectors threads schedule st :
  costs_improve st
    (phase (trial_iteration cost_function target_value cancellation trial_vectors)
       threads schedule st).
Proof.
  apply (phase_invariant (costs_improve st)); [|apply costs_improve_refl].
  intros i st' H. eapply costs_improve_trans; [exact H|].
  apply trial_iteration_costs_improve.
Qed.

Lemma minimum_improves l l' :
  length l' = length l → (∀ i, improves (l !!! i) (l' !!! i)) →
  isnan (l !!! min_element l) = false →
  fle (l' !!! min_element l') (l !!! min_element l) = true.
Proof.
  intros Hlen H Hm. destruct l as [|x l]; [done|].
  destruct l' as [|x' l']; [done|].
  assert (isnan x = false) as Hx.
  { destruct (isnan x) eqn:E; [|done]. destruct x; try done.
    by rewrite min_element_nan_head in Hm. }
  assert (isnan x' = false) as Hx' by (eapply improves_not_nan; [apply (H 0)|done]).
  destruct (min_element_least x l Hx) as (m & Hk & _ & _ & _).
  destruct (min_element_least x' l' Hx') as (m' & Hk' & _ & Hle' & _).
  rewrite (list_lookup_total_correct _ _ _ Hk), (list_lookup_total_correct _ _ _ Hk').
  rewrite (list_lookup_total_correct _ _ _ Hk) in Hm.
  pose proof (H (min_element (x :: l))) as Hi.
  rewrite (list_lookup_total_correct _ _ _ Hk) in Hi.
  eapply fle_trans; [|by apply improves_le].
  apply (Hle' (min_element (x :: l))); [|by eapply improves_not_nan].
  apply list_lookup_lookup_total_lt. rewrite Hlen. by eapply lookup_lt_Some.
Qed.

(** C7: over the trial phase of a generation, under any schedule, no slot's
    cost gets larger, and a cost that is a number only stays or decreases; the
    same holds for the cost at the slot the final scan would return. *)
Theorem cost_never_increases
    cost_function target_value cancellation trial_vectors threads schedule st :
  let st' := phase (trial_iteration cost_function target_value cancellation
                      trial_vectors) threads schedule st in
  (∀ i, flt (cost st !!! i) (cost st' !!! i) = false ∧
        (isnan (cost st !!! i) = false → fle (cost st' !!! i) (cost st !!! i) = true))
  ∧ let m := cost st !!! min_element (cost st) in
    let m' := cost st' !!! min_element (cost st') in
    flt m m' = false ∧ (isnan m = false → fle m' m = true).
Proof.
  intros st'.
  destruct (trial_phase_costs_improve cost_function target_value cancellation
              trial_vectors threads schedule st) as [Hlen H].
  fold st' in Hlen, H. split.
  - intros i. split; [by apply improves_not_greater|by apply improves_le].
  - intros m m'.
    assert (isnan m = false → fle m' m = true) as Hle
      by (by apply minimum_improves).
    split; [|done]. destruct (isnan m) eqn:E.
    + by destruct m.
    + by apply fle_not_flt, Hle.
Qed.

(** ** Rejection sampling of r1, r2, r3 (C9) *)

Definition distinct4 (i r1 r2 r3 : nat) : Prop :=
  r1 ≠ i ∧ r2 ≠ i ∧ r2 ≠ r1 ∧ r3 ≠ i ∧ r3 ≠ r2 ∧ r3 ≠ r1.

(** The three loops for slot [i] come to an end, with distinct indices. *)
Definition sampling_terminates (G : Type) (gen : G → N * G)
    (p : differential_evolution_parameters) (i : nat) (g : G) : Prop :=
  ∃ fuel r1 r2 r3 g',
    draw_r123 G gen p fuel i g = Some (r1, r2, r3, g') ∧ distinct4 i r1 r2 r3.

Section Sampling.
Variable G : Type.
Variable gen : G → N * G.
Variable p : differential_evolution_parameters.

Lemma draw_index_S fuel excluded g :
  draw_index G gen p (S fuel) excluded g =
  let '(v, g') := gen g in
  let r := N.to_nat (v mod N.of_nat (NP p)) in
  if excluded r then draw_index G gen p fuel excluded g' else Some (r, g').
Proof. done. Qed.

Lemma draw_index_sound fuel excluded g r g' :
  draw_index G gen p fuel excluded g = Some (r, g') →
  excluded r = false ∧ (0 < NP p → r < NP p).
Proof.
  revert g. induction fuel as [|fuel IH]; intros g; simpl; [done|].
  destruct (gen g) as [v g1].
  destruct (excluded (N.to_nat _)) eqn:E; [by apply IH|].
  intros [= <- <-]. split; [done|]. intros HNP.
  pose proof (N.mod_upper_bound v (N.of_nat (NP p))). lia.
Qed.

Lemma draw_index_more_fuel fuel fuel' excluded g x :
  draw_index G gen p fuel excluded g = Some x → fuel ≤ fuel' →
  draw_index G gen p fuel' excluded g = Some x.
Proof.
  revert fuel' g. induction fuel as [|fuel IH]; intros fuel' g; simpl; [done|].
  intros H Hle. destruct fuel' as [|fuel']; [lia|]. simpl.
  destruct (gen g) as [v g1]. destruct (excluded _); [|done].
  apply IH; [done|lia].
Qed.

Lemma draw_index_terminates excluded r g :
  fair gen (NP p) → r < NP p → excluded r = false →
  ∃ fuel x, draw_index G gen p fuel excluded g = Some x.
Proof.
  intros Hfair Hr Hex. destruct (Hfair g r Hr) as [k Hk]. exists (S k).
  revert g Hk. induction k as [|k IH]; intros g Hk.
  - simpl in *. destruct (gen g) as [v g1]. simpl in Hk. rewrite Hk, Hex. eauto.
  - rewrite draw_index_S. cbn [draws] in Hk.
    destruct (gen g) as [v g1]. simpl in Hk.
    simpl. destruct (excluded (N.to_nat _)); [by apply IH|eauto].
Qed.

Lemma draw_r123_distinct fuel i g r1 r2 r3 g' :
  draw_r123 G gen p fuel i g = Some (r1, r2, r3, g') →
  distinct4 i r1 r2 r3 ∧ (0 < NP p → r1 < NP p ∧ r2 < NP p ∧ r3 < NP p).
Proof.
  unfold draw_r123. intros H.
  destruct (draw_index G gen p fuel _ g) as [[a g1]|] eqn:E1; [|done].
  simpl in H.
  destruct (draw_index G gen p fuel _ g1) as [[b g2]|] eqn:E2; [|done].
  simpl in H.
  destruct (draw_index G gen p fuel _ g2) as [[c g3]|] eqn:E3; [|done].
  simpl in H. injection H as <- <- <- <-.
  apply draw_index_sound in E1 as [E1 B1], E2 as [E2 B2], E3 as [E3 B3].
  apply Nat.eqb_neq in E1.
  apply orb_false_iff in E2 as [E2 E2']. apply Nat.eqb_neq in E2, E2'.
  apply orb_false_iff in E3 as [E3 E3'']. apply orb_false_iff in E3 as [E3 E3'].
  apply Nat.eqb_neq in E3, E3', E3''.
  unfold distinct4. auto 10.
Qed.

Lemma free_index i a b : 4 ≤ NP p → ∃ r, r < NP p ∧ r ≠ i ∧ r ≠ a ∧ r ≠ b.
Proof.
  intros HNP.
  destruct (decide (i = 0 ∨ a = 0 ∨ b = 0)); [|exists 0; lia].
  destruct (decide (i = 1 ∨ a = 1 ∨ b = 1)); [|exists 1; lia].
  destruct (decide (i = 2 ∨ a = 2 ∨ b = 2)); [|exists 2; lia].
  exists 3. lia.
Qed.

Lemma draw_r123_more_fuel fuel fuel' i g x :
  draw_r123 G gen p fuel i g = Some x → fuel ≤ fuel' →
  draw_r123 G gen p fuel' i g = Some x.
Proof.
  unfold draw_r123. intros H Hle.
  destruct (draw_index G gen p fuel _ g) as [[r1 g1]|] eqn:E1; [|done].
  rewrite (draw_index_more_fuel _ fuel' _ _ _ E1 Hle). simpl in *.
  destruct (draw_index G gen p fuel _ g1) as [[r2 g2]|] eqn:E2; [|done].
  rewrite (draw_index_more_fuel _ fuel' _ _ _ E2 Hle). simpl in *.
  destruct (draw_index G gen p fuel _ g2) as [[r3 g3]|] eqn:E3; [|done].
  by rewrite (draw_index_more_fuel _ fuel' _ _ _ E3 Hle).
Qed.

Lemma draw_r123_terminates i g :
  4 ≤ NP p → fair gen (NP p) → ∃ fuel x, draw_r123 G gen p fuel i g = Some x.
Proof.
  intros HNP Hfair.
  destruct (free_index i i i HNP) as (a & Ha & Hai & _).
  destruct (draw_index_terminates (λ r, r =? i) a g Hfair Ha) as (f1 & [r1 g1] & E1).
  { by apply Nat.eqb_neq. }
  destruct (free_index i r1 r1 HNP) as (b & Hb & Hbi & Hb1 & _).
  destruct (draw_index_terminates (λ r, (r =? i) || (r =? r1)) b g1 Hfair Hb)
    as (f2 & [r2 g2] & E2).
  { apply orb_false_iff. split; by apply Nat.eqb_neq. }
  destruct (free_index i r2 r1 HNP) as (c & Hc & Hci & Hc2 & Hc1).
  destruct (draw_index_terminates (λ r, (r =? i) || (r =? r2) || (r =? r1)) c g2
              Hfair Hc) as (f3 & [r3 g3] & E3).
  { rewrite !orb_false_iff. repeat split; by apply Nat.eqb_neq. }
  exists (f1 + f2 + f3), (r1, r2, r3, g3). unfold draw_r123.
  rewrite (draw_index_more_fuel _ (f1 + f2 + f3) _ _ _ E1) by lia. simpl.
  rewrite (draw_index_more_fuel _ (f1 + f2 + f3) _ _ _ E2) by lia. simpl.
  by rewrite (draw_index_more_fuel _ (f1 + f2 + f3) _ _ _ E3) by lia.
Qed.

(** C9 (amended): with at least four candidates, and a generator from which
    every residue modulo NP eventually shows up, the three loops for slot
    [i] end, and the indices they leave are distinct from each other and
    from [i]. *)
Theorem rejection_sampling_terminates i g :
  4 ≤ NP p → fair gen (NP p) → sampling_terminates G gen p i g.
Proof.
  intros HNP Hfair.
  destruct (draw_r123_terminates i g HNP Hfair) as (fuel & [[[r1 r2] r3] g'] & E).
  exists fuel, r1, r2, r3, g'. split; [done|].
  by apply draw_r123_distinct in E as [E _].
Qed.
End Sampling.

Lemma rejection_sampling_counter :
  4 ≤ NP params_1d ∧ fair Counter.gen (NP params_1d) ∧
  sampling_terminates Counter.G Counter.gen params_1d 0 0%N.
Proof.
  assert (4 ≤ NP params_1d) as H by (simpl; lia).
  split; [exact H|]. split; [apply Counter.gen_fair|].
  apply rejection_sampling_terminates; [exact H|apply Counter.gen_fair].
Defined.

Lemma draw_index_zeros fuel excluded :
  excluded 0 = true →
  draw_index Replay.G Replay.gen params_1d fuel excluded [] = None.
Proof.
  intros H. induction fuel as [|fuel IH]; [done|].
  rewrite draw_index_S. simpl. change (N.to_nat _) with 0. by rewrite H.
Qed.

(** C9 as stated fails: NP = 4, but the generator only ever returns 0, and the
    first loop for slot 0 redraws for ever. *)
Lemma rejection_sampling_may_diverge :
  ¬ sampling_terminates Replay.G Replay.gen params_1d 0 [].
Proof.
  intros (fuel & r1 & r2 & r3 & g' & H & _). unfold draw_r123 in H.
  by rewrite draw_index_zeros in H.
Qed.

(** ** The query log (C8) *)

(** Which evaluations the code logs: all of the initial phase, and those of a
    trial phase whose cost is not NaN. *)
Definition logs (tag : phase_tag) (c : Real) : bool :=
  match tag with
  | Initial => true
  | Trial => negb (isnan c)
  end.

Definition logs_all (tag : phase_tag) (c : Real) : bool := true.

(** The log entries of the evaluations [evs] that [keep] lets through. *)
Definition log_of (keep : phase_tag → Real → bool) (cost_function : list Real → Real)
    (evs : list (phase_tag * list Real)) : list (list Real * Real) :=
  (λ e, (e.2, cost_function e.2)) <$> List.filter (λ e, keep e.1 (cost_function e.2)) evs.

(** The log is what the caller passed plus one entry per kept evaluation. *)
Definition log_matches (keep : phase_tag → Real → bool)
    (cost_function : list Real → Real) (q0 : list (list Real * Real)) (st : state) : Prop :=
  queries st = Some (q0 ++ log_of keep cost_function (evals st)).

Lemma log_of_snoc keep cost_function evs tag x :
  log_of keep cost_function (evs ++ [(tag, x)]) =
  log_of keep cost_function evs ++
  (if keep tag (cost_function x) then [(x, cost_function x)] else []).
Proof.
  unfold log_of. rewrite List.filter_app, fmap_app. simpl.
  by destruct (keep tag (cost_function x)).
Qed.

Section QueryLog.
Variable cost_function : list Real → Real.
Variable target_value : Real.
Variable cancellation : option (nat → bool).
Variable q0 : list (list Real * Real).

Lemma initial_iteration_log i st :
  log_matches logs cost_function q0 st →
  log_matches logs cost_function q0 (initial_iteration cost_function target_value i st).2.
Proof.
  unfold log_matches. simpl. intros ->. simpl.
  by rewrite log_of_snoc, app_assoc.
Qed.

Lemma select_log trial_vectors i st :
  log_matches logs cost_function q0 st →
  log_matches logs cost_function q0 (select cost_function target_value trial_vectors i st).
Proof.
  unfold log_matches, select. intros H.
  destruct (isnan (cost_function (trial_vectors !!! i))) eqn:En; simpl.
  - by rewrite log_of_snoc, H; simpl; rewrite En, app_nil_r.
  - destruct (flt _ _ || isnan _); simpl;
      by rewrite log_of_snoc, H; simpl; rewrite En, app_assoc.
Qed.

Lemma trial_iteration_log trial_vectors i st :
  log_matches logs cost_function q0 st →
  log_matches logs cost_function q0
    (trial_iteration cost_function target_value cancellation trial_vectors i st).2.
Proof.
  unfold trial_iteration, poll_cancellation. intros H.
  destruct (target_attained st); [done|].
  destruct cancellation as [observed|]; [destruct (observed _)|]; simpl;
    try done; by apply select_log.
Qed.

Lemma generations_log G gen unif01 p fuel schedule n generation (r : run G) :
  log_matches logs cost_function q0 (final r) →
  log_matches logs cost_function q0
    (final (generations G gen unif01 cost_function p target_value cancellation
              fuel schedule n generation r).2).
Proof.
  revert generation r. induction n as [|n IH]; intros generation r H; simpl; [done|].
  unfold poll_cancellation.
  assert (∀ st1, log_matches logs cost_function q0 st1 →
    log_matches logs cost_function q0
      (final (if target_attained st1
              then (true, {| final := st1; rng := rng r; trials := trials r |})
              else
                match make_trials G gen unif01 p fuel (population st1)
                        (seq 0 (NP p)) (rng r) with
                | None => (false, {| final := st1; rng := rng r; trials := trials r |})
                | Some (trial_vectors, g') =>
                    generations G gen unif01 cost_function p target_value
                      cancellation fuel schedule n (S generation)
                      {| final := phase (trial_iteration cost_function target_value
                                           cancellation trial_vectors)
                                    (threads p) (schedule (S generation)) st1;
                         rng := g'; trials := trials r ++ [trial_vectors] |}
                end).2)) as Hrest.
  { intros st1 H1. destruct (target_attained st1); [done|].
    destruct (make_trials _ _ _ _ _ _ _ _) as [[tv g']|]; [|done].
    apply IH. simpl. apply phase_invariant; [|done].
    intros i st. apply trial_iteration_log. }
  destruct cancellation as [observed|]; [destruct (observed _)|];
    try done; by apply Hrest.
Qed.
End QueryLog.

(** C8 (amended): when a log is supplied, after the call it holds what it held
    before, followed, in evaluation order, by one entry (candidate, cost) for
    every evaluation of the initial phase and for every evaluation of a trial
    phase whose cost is not NaN (infinite costs included). *)
Theorem query_log_contents
    G gen unif01 validate_bounds validate_initial_guess random_initial_population
    cost_function p target_value cancellation fuel schedule g q0 cmc :
  log_matches logs cost_function q0
    (final (differential_evolution_run G gen unif01 validate_bounds
              validate_initial_guess random_initial_population cost_function p
              target_value cancellation fuel schedule g (Some q0) cmc).2).
Proof.
  unfold differential_evolution_run.
  destruct (validate_differential_evolution_parameters _ _ _) as [e|].
  { unfold log_matches. simpl. by rewrite app_nil_r. }
  destruct (random_initial_population _ _ _ _) as [pop0 g0].
  match goal with
  | |- context [generations ?G ?gen ?u ?f ?p ?t ?c ?fu ?s ?n ?k ?r] =>
      pose proof (generations_log f t c q0 G gen u p fu s n k r) as H;
      destruct (generations G gen u f p t c fu s n k r) as [finished r']
  end.
  simpl in *. apply H. apply phase_invariant.
  - intros i st. apply initial_iteration_log.
  - unfold log_matches. simpl. by rewrite app_nil_r.
Qed.

(** One dimension on [0,8], population [0], [1], [2], [3], one generation; each
    slot draws r1, r2, r3, the "guaranteed" index and the uniform number. *)
Definition tape_1d : list N :=
  [eighth 0; eighth 1; eighth 2; eighth 3;
   1; 2; 3; 0; 0;   0; 2; 3; 0; 0;   0; 1; 3; 0; 0;   0; 1; 2; 0; 0]%N.

(** C8 as stated fails: the four trials, [0.5], [0], [0], [0], all cost NaN
    under [sqrt(x - 1)]; there are eight evaluations and four log entries. *)
Lemma nan_trial_is_not_logged :
  ¬ log_matches logs_all sqrt_shifted []
      (final (Replay.run_de sqrt_shifted params_1d quiet_NaN None 1 (λ _, [])
                tape_1d (Some []) None).2).
Proof. unfold log_matches. vm_compute. intros H. discriminate H. Qed.

(** ** Bound containment (C6) *)

(** [x] has the dimension of the bounds and every coordinate lies between its
    lower and its upper bound. *)
Definition within (lo hi x : list Real) : Prop :=
  length x = length lo ∧
  ∀ j, j < length lo →
       fle (lo !!! j) (x !!! j) = true ∧ fle (x !!! j) (hi !!! j) = true.

(** Bounds are finite numbers with [lower[j] <= upper[j]]. *)
Definition bounds_ok (lo hi : list Real) : Prop :=
  length hi = length lo ∧
  ∀ j, j < length lo →
       isfinite (lo !!! j) = true ∧ isfinite (hi !!! j) = true ∧
       fle (lo !!! j) (hi !!! j) = true.

Definition withinb (lo hi x : list Real) : bool :=
  (length x =? length lo) &&
  forallb (λ j, fle (lo !!! j) (x !!! j) && fle (x !!! j) (hi !!! j))
    (seq 0 (length lo)).

Definition bounds_okb (lo hi : list Real) : bool :=
  (length hi =? length lo) &&
  forallb (λ j, isfinite (lo !!! j) && isfinite (hi !!! j) && fle (lo !!! j) (hi !!! j))
    (seq 0 (length lo)).

Lemma forallb_seq (f : nat → bool) n :
  forallb f (seq 0 n) = true → ∀ j, j < n → f j = true.
Proof.
  rewrite List.forallb_forall. intros H j Hj. apply H, in_seq. lia.
Qed.

Lemma withinb_within lo hi x : withinb lo hi x = true → within lo hi x.
Proof.
  unfold withinb, within. intros [Hl H]%andb_true_iff.
  apply Nat.eqb_eq in Hl. split; [done|]. intros j Hj.
  by apply andb_true_iff, (forallb_seq _ _ H).
Qed.

Lemma forallb_withinb lo hi l :
  forallb (withinb lo hi) l = true → Forall (within lo hi) l.
Proof.
  induction l as [|x l IH]; simpl; [constructor|].
  intros [? ?]%andb_true_iff. constructor; [by apply withinb_within|auto].
Qed.

Lemma bounds_okb_ok lo hi : bounds_okb lo hi = true → bounds_ok lo hi.
Proof.
  unfold bounds_okb, bounds_ok. intros [Hl H]%andb_true_iff.
  apply Nat.eqb_eq in Hl. split; [done|]. intros j Hj.
  pose proof (forallb_seq _ _ H j Hj) as Hj'.
  apply andb_true_iff in Hj' as [Hj' ?]. by apply andb_true_iff in Hj' as [? ?].
Qed.

Lemma min_element_from_range best bestv i l :
  let k := min_element_from best bestv i l in
  k = best ∨ i ≤ k < i + length l.
Proof.
  revert best bestv i. induction l as [|x l IH]; intros best bestv i; simpl; [auto|].
  destruct (flt x bestv).
  - destruct (IH i x (S i)) as [->|?]; right; lia.
  - destruct (IH best bestv (S i)) as [->|?]; [auto|right; lia].
Qed.

Lemma min_element_lt l : 0 < length l → min_element l < length l.
Proof.
  destruct l as [|x l]; simpl; [lia|]. intros _.
  destruct (min_element_from_range 0 x 1 l) as [->|?]; lia.
Qed.

Lemma validation_passed validate_bounds validate_initial_guess p :
  validate_differential_evolution_parameters validate_bounds validate_initial_guess p
    = None →
  4 ≤ NP p ∧ (∃ m e, mutation_factor p = S754_finite false m e) ∧
  1 ≤ max_generations p ∧ 0 < threads p.
Proof.
  unfold validate_differential_evolution_parameters.
  destruct (validate_bounds _ _); [done|].
  destruct (Nat.ltb_spec (NP p) 4); [done|].
  destruct (isnan (mutation_factor p)) eqn:En; [done|].
  destruct (fle one (mutation_factor p)) eqn:E1; [done|].
  destruct (fle (mutation_factor p) zero) eqn:E0; [done|]. simpl.
  destruct (Nat.ltb_spec (max_generations p) 1); [done|].
  destruct (match initial_guess p with Some _ => _ | None => _ end); [done|].
  destruct (Nat.eqb_spec (threads p) 0); [done|]. intros _.
  repeat split; try lia. by apply mutation_factor_shape.
Qed.

Section BoundContainment.
Variable G : Type.
Variable gen : G → N * G.
Variable unif01 : G → Real * G.
Variable p : differential_evolution_parameters.

Let lo := lower_bounds p.
Let hi := upper_bounds p.

(** What validation establishes and the proofs below use. *)
Definition well_configured : Prop :=
  bounds_ok lo hi ∧ 0 < NP p ∧ ∃ m e, mutation_factor p = S754_finite false m e.

Lemma within_finite x j :
  bounds_ok lo hi → within lo hi x → j < length lo → isfinite (x !!! j) = true.
Proof.
  intros [_ Hb] [_ Hx] Hj. destruct (Hb j Hj) as (? & ? & _).
  destruct (Hx j Hj). by apply (between_finite (lo !!! j) _ (hi !!! j)).
Qed.

Lemma mutant_coordinate_within pop r1 r2 r3 j :
  well_configured → Forall (within lo hi) pop →
  r1 < length pop → r2 < length pop → r3 < length pop → j < length lo →
  let tmp := fadd (at2 pop r1 j)
               (fmul (mutation_factor p) (fsub (at2 pop r2 j) (at2 pop r3 j))) in
  fle (lo !!! j) (clamp tmp (lo !!! j) (hi !!! j)) = true ∧
  fle (clamp tmp (lo !!! j) (hi !!! j)) (hi !!! j) = true.
Proof.
  intros (Hb & _ & m & e & HF) Hpop H1 H2 H3 Hj tmp.
  assert (∀ r, r < length pop → isfinite (at2 pop r j) = true) as Hfin.
  { intros r Hr. apply within_finite; [done| |done].
    by apply Forall_lookup_total_1. }
  apply clamp_bounds; [|by apply Hb]. unfold tmp. rewrite HF.
  apply fadd_not_nan; [by apply Hfin|].
  apply fmul_not_nan, fsub_not_nan; by apply Hfin.
Qed.

Lemma crossover_within pop i r1 r2 r3 js g :
  well_configured → Forall (within lo hi) pop →
  i < length pop → r1 < length pop → r2 < length pop → r3 < length pop →
  Forall (λ j, j < length lo) js →
  Forall2 (λ j x, fle (lo !!! j) x = true ∧ fle x (hi !!! j) = true) js
    (crossover G gen unif01 p pop i r1 r2 r3 js g).1.
Proof.
  intros Hp Hpop Hi H1 H2 H3 Hjs. revert g.
  induction Hjs as [|j js Hj Hjs IH]; intros g; simpl; [constructor|].
  destruct (gen g) as [v g1]. destruct (unif01 g1) as [u g2].
  specialize (IH g2). destruct (crossover _ _ _ _ _ _ _ _ _ _ g2) as [rest g3].
  simpl in *. constructor; [|done].
  destruct (flt u _ || (j =? _)).
  - by apply mutant_coordinate_within.
  - destruct (Forall_lookup_total_1 _ _ i Hpop Hi) as [_ Hx]. by apply Hx.
Qed.

Lemma trial_vector_within pop i r1 r2 r3 g :
  well_configured → Forall (within lo hi) pop →
  i < length pop → r1 < length pop → r2 < length pop → r3 < length pop →
  within lo hi (crossover G gen unif01 p pop i r1 r2 r3 (seq 0 (length lo)) g).1.
Proof.
  intros Hp Hpop Hi H1 H2 H3.
  pose proof (crossover_within pop i r1 r2 r3 (seq 0 (length lo)) g
                Hp Hpop Hi H1 H2 H3) as H.
  destruct (crossover _ _ _ _ _ _ _ _ _ _ g) as [t g']. simpl in *.
  assert (Forall (λ j, j < length lo) (seq 0 (length lo))) as Hseq
    by (apply Forall_seq; lia).
  specialize (H Hseq). pose proof (Forall2_length _ _ _ H) as Hlen.
  rewrite length_seq in Hlen. split; [done|]. intros j Hj.
  eapply (Forall2_lookup_lr _ _ _ j j (t !!! j)) in H; [done| |].
  - by apply lookup_seq_lt.
  - apply list_lookup_lookup_total_lt. lia.
Qed.

Lemma make_trials_within fuel pop slots g tv g' :
  well_configured → Forall (within lo hi) pop → length pop = NP p →
  Forall (λ i, i < NP p) slots →
  make_trials G gen unif01 p fuel pop slots g = Some (tv, g') →
  length tv = length slots ∧ Forall (within lo hi) tv.
Proof.
  intros Hp Hpop Hlen Hslots. revert g tv g'.
  induction Hslots as [|i slots Hi Hslots IH]; intros g tv g'; simpl.
  { by intros [= <- <-]. }
  destruct (draw_r123 G gen p fuel i g) as [[[[r1 r2] r3] g1]|] eqn:Er; [|done].
  simpl. fold lo.
  pose proof (trial_vector_within pop i r1 r2 r3 g1 Hp Hpop) as Ht.
  destruct (crossover _ _ _ _ _ _ _ _ _ _ g1) as [t g2].
  destruct (make_trials _ _ _ _ _ _ _ g2) as [[ts g3]|] eqn:Em; [|done].
  simpl. intros [= <- <-].
  destruct (IH _ _ _ Em) as [IH1 IH2].
  apply draw_r123_distinct in Er as [_ Hr].
  destruct Hp as (Hb & HNP & HF). destruct (Hr HNP) as (? & ? & ?).
  split; [simpl; lia|]. constructor; [|done].
  apply Ht; lia.
Qed.

(** The invariant of the shared state. *)
Definition contained (st : state) : Prop :=
  length (population st) = NP p ∧ length (cost st) = NP p ∧
  Forall (within lo hi) (population st).

Lemma initial_iteration_contained cost_function target_value i st :
  contained st → contained (initial_iteration cost_function target_value i st).2.
Proof. intros (? & ? & ?). split; [done|]. split; [|done]. simpl. by rewrite length_insert. Qed.

Lemma select_contained cost_function target_value trial_vectors i st :
  Forall (within lo hi) trial_vectors → length trial_vectors = NP p →
  contained st → contained (select cost_function target_value trial_vectors i st).
Proof.
  intros Htv Hlen (Hp & Hc & Hw). unfold select.
  destruct (isnan _); [done|]. destruct (flt _ _ || isnan _); [|done].
  split; [|split]; simpl; rewrite ?length_insert; try done.
  destruct (decide (i < NP p)) as [Hi|Hi].
  - apply Forall_insert; [done|]. apply Forall_lookup_total_1; [done|lia].
  - rewrite list_insert_ge by lia. done.
Qed.

Lemma trial_iteration_contained cost_function target_value cancellation
    trial_vectors i st :
  Forall (within lo hi) trial_vectors → length trial_vectors = NP p →
  contained st →
  contained (trial_iteration cost_function target_value cancellation
               trial_vectors i st).2.
Proof.
  intros Htv Hlen H. unfold trial_iteration, poll_cancellation.
  destruct (target_attained st); [done|].
  destruct cancellation as [observed|]; [destruct (observed _)|]; simpl;
    try done; by apply select_contained.
Qed.

Lemma generations_contained cost_function target_value cancellation fuel schedule
    n generation (r : run G) :
  well_configured → contained (final r) →
  Forall (Forall (within lo hi)) (trials r) →
  let r' := (generations G gen unif01 cost_function p target_value cancellation
               fuel schedule n generation r).2 in
  contained (final r') ∧ Forall (Forall (within lo hi)) (trials r').
Proof.
  intros Hp. revert generation r.
  induction n as [|n IH]; intros generation r Hc Ht; simpl; [done|].
  assert (contained (poll_cancellation cancellation (final r)).2) as Hc1.
  { unfold poll_cancellation. by destruct cancellation. }
  destruct (poll_cancellation cancellation (final r)) as [[] st1]; simpl in Hc1;
    [done|].
  destruct (target_attained st1); [done|].
  destruct (make_trials _ _ _ _ _ _ _ _) as [[tv g']|] eqn:Em; [|done].
  destruct Hc1 as (Hc1 & Hc2 & Hc3).
  apply make_trials_within in Em as [Hlen Htv]; try done;
    [|apply Forall_seq; lia].
  rewrite length_seq in Hlen.
  apply IH; simpl.
  - apply phase_invariant; [|done]. intros i st.
    by apply trial_iteration_contained.
  - apply Forall_app. split; [done|]. by constructor.
Qed.
End BoundContainment.

(** ** The call returns when the generator is fair *)

Section Termination.
Variable G : Type.
Variable gen : G → N * G.
Variable unif01 : G → Real * G.
Variable cost_function : list Real → Real.
Variable p : differential_evolution_parameters.
Variable target_value : Real.
Variable cancellation : option (nat → bool).
Variable schedule : nat → list nat.

Lemma make_trials_returns pop slots g :
  4 ≤ NP p → fair gen (NP p) →
  ∃ fuel0 tv g', ∀ fuel, fuel0 ≤ fuel →
    make_trials G gen unif01 p fuel pop slots g = Some (tv, g').
Proof.
  intros HNP Hfair. revert g. induction slots as [|i slots IH]; intros g; simpl.
  { exists 0, [], g. done. }
  destruct (draw_r123_terminates G gen p i g HNP Hfair)
    as (f1 & [[[r1 r2] r3] g1] & E1).
  destruct (crossover G gen unif01 p pop i r1 r2 r3
              (seq 0 (length (lower_bounds p))) g1) as [t g2] eqn:Ec.
  destruct (IH g2) as (f2 & ts & g3 & E2).
  exists (f1 + f2), (t :: ts), g3. intros fuel Hfuel.
  rewrite (draw_r123_more_fuel G gen p f1 fuel i g _ E1) by lia. simpl.
  rewrite Ec, (E2 fuel) by lia. done.
Qed.

Lemma generations_returns n generation (r : run G) :
  4 ≤ NP p → fair gen (NP p) →
  ∃ fuel0 r', ∀ fuel, fuel0 ≤ fuel →
    generations G gen unif01 cost_function p target_value cancellation
      fuel schedule n generation r = (true, r').
Proof.
  intros HNP Hfair. revert generation r.
  induction n as [|n IH]; intros generation r; simpl.
  { exists 0, r. done. }
  destruct (poll_cancellation cancellation (final r)) as [[] st1].
  { eexists 0, _. done. }
  destruct (target_attained st1).
  { eexists 0, _. done. }
  destruct (make_trials_returns (population st1) (seq 0 (NP p)) (rng r) HNP Hfair)
    as (f1 & tv & g' & E1).
  destruct (IH (S generation)
              {| final := phase (trial_iteration cost_function target_value
                                   cancellation tv) (threads p)
                            (schedule (S generation)) st1;
                 rng := g'; trials := trials r ++ [tv] |}) as (f2 & r' & E2).
  exists (f1 + f2), r'. intros fuel Hfuel.
  rewrite (E1 fuel) by lia. apply E2. lia.
Qed.

Lemma differential_evolution_returns
    validate_bounds validate_initial_guess random_initial_population g q cmc :
  fair gen (NP p) →
  validate_differential_evolution_parameters validate_bounds validate_initial_guess p
    = None →
  ∃ fuel0 x, ∀ fuel, fuel0 ≤ fuel →
    differential_evolution G gen unif01 validate_bounds validate_initial_guess
      random_initial_population cost_function p target_value cancellation
      fuel schedule g q cmc = Return x.
Proof.
  intros Hfair Hv. pose proof (validation_passed _ _ _ Hv) as (HNP & _).
  unfold differential_evolution, differential_evolution_run. rewrite Hv.
  destruct (random_initial_population _ _ _ _) as [pop0 g0].
  match goal with
  | |- context [generations _ _ _ _ _ _ _ _ _ ?n ?k ?r] =>
      destruct (generations_returns n k r HNP Hfair) as (fuel0 & r' & E)
  end.
  exists fuel0. eexists. intros fuel Hfuel. by rewrite (E fuel Hfuel).
Qed.
End Termination.

Lemma run_contained
    G gen unif01 validate_bounds validate_initial_guess random_initial_population
    cost_function p target_value cancellation fuel schedule g q cmc :
  bounds_ok (lower_bounds p) (upper_bounds p) →
  (let pop0 := (random_initial_population (lower_bounds p) (upper_bounds p) (NP p) g).1 in
   length pop0 = NP p ∧ Forall (within (lower_bounds p) (upper_bounds p)) pop0) →
  (∀ x0, initial_guess p = Some x0 → within (lower_bounds p) (upper_bounds p) x0) →
  let '(out, r) :=
    differential_evolution_run G gen unif01 validate_bounds validate_initial_guess
      random_initial_population cost_function p target_value cancellation
      fuel schedule g q cmc in
  Forall (within (lower_bounds p) (upper_bounds p)) (population (final r)) ∧
  Forall (Forall (within (lower_bounds p) (upper_bounds p))) (trials r) ∧
  ∀ x, out = Return x → within (lower_bounds p) (upper_bounds p) x.
Proof.
  intros Hb Hinit Hguess. unfold differential_evolution_run.
  destruct (validate_differential_evolution_parameters _ _ _) eqn:Ev.
  { split; [constructor|]. split; [constructor|]. done. }
  apply validation_passed in Ev as (HNP & HF & _ & _).
  assert (well_configured p) as Hp by (split; [done|split; [lia|done]]).
  destruct (random_initial_population _ _ _ _) as [pop0 g0]. simpl in Hinit.
  destruct Hinit as [Hlen Hpop0].
  match goal with
  | |- context [generations ?G ?gen ?u ?f ?p ?t ?c ?fu ?s ?n ?k ?r] =>
      pose proof (generations_contained G gen u p f t c fu s n k r Hp) as H;
      destruct (generations G gen u f p t c fu s n k r) as [finished r']
  end.
  simpl in H. destruct H as [(Hl1 & Hl2 & Hw) Ht]; [|constructor|].
  { apply phase_invariant.
    - intros i st. apply initial_iteration_contained.
    - split; [|split]; simpl.
      + destruct (initial_guess p); by rewrite ?length_insert.
      + by rewrite length_replicate.
      + destruct (initial_guess p) as [x0|]; [|done].
        apply Forall_insert; [done|]. by apply Hguess. }
  split; [done|]. split; [done|]. intros x. destruct finished; [|done].
  intros [= <-]. apply Forall_lookup_total_1; [done|].
  rewrite Hl1, <- Hl2. apply min_element_lt. lia.
Qed.

(** C6: with finite bounds [lower[j] <= upper[j]], an initializer that returns
    NP candidates within the bounds and an initial guess within the bounds,
    every member of the population and every trial vector of every generation
    lies within the bounds at the end of the call, whatever the schedule, and so
    does the candidate returned. With a fair generator and parameters that pass
    validation, the call does return a candidate. *)
Theorem candidates_stay_within_bounds
    G gen unif01 validate_bounds validate_initial_guess random_initial_population
    cost_function p target_value cancellation fuel schedule g q cmc :
  bounds_ok (lower_bounds p) (upper_bounds p) →
  (let pop0 := (random_initial_population (lower_bounds p) (upper_bounds p) (NP p) g).1 in
   length pop0 = NP p ∧ Forall (within (lower_bounds p) (upper_bounds p)) pop0) →
  (∀ x0, initial_guess p = Some x0 → within (lower_bounds p) (upper_bounds p) x0) →
  (let '(out, r) :=
     differential_evolution_run G gen unif01 validate_bounds validate_initial_guess
       random_initial_population cost_function p target_value cancellation
       fuel schedule g q cmc in
   Forall (within (lower_bounds p) (upper_bounds p)) (population (final r)) ∧
   Forall (Forall (within (lower_bounds p) (upper_bounds p))) (trials r) ∧
   ∀ x, out = Return x → within (lower_bounds p) (upper_bounds p) x) ∧
  (fair gen (NP p) →
   validate_differential_evolution_parameters validate_bounds validate_initial_guess p
     = None →
   ∃ fuel' x,
     differential_evolution G gen unif01 validate_bounds validate_initial_guess
       random_initial_population cost_function p target_value cancellation
       fuel' schedule g q cmc = Return x ∧
     within (lower_bounds p) (upper_bounds p) x).
Proof.
  intros Hb Hinit Hguess. split; [by apply run_contained|].
  intros Hfair Hv.
  destruct (differential_evolution_returns G gen unif01 cost_function p target_value
              cancellation schedule validate_bounds validate_initial_guess
              random_initial_population g q cmc Hfair Hv) as (fuel' & x & Hx).
  exists fuel', x. specialize (Hx fuel' (le_n _)). split; [done|].
  pose proof (run_contained G gen unif01 validate_bounds validate_initial_guess
                random_initial_population cost_function p target_value cancellation
                fuel' schedule g q cmc Hb Hinit Hguess) as H.
  unfold differential_evolution in Hx.
  destruct (differential_evolution_run _ _ _ _ _ _ _ _ _ _ _ _ _ _ _) as [out r].
  simpl in Hx. destruct H as (_ & _ & H). by apply H.
Qed.

Definition params_2d_guess : differential_evolution_parameters :=
  {| lower_bounds := [of_Z 0; of_Z 0]; upper_bounds := [of_Z 8; of_Z 8];
     mutation_factor := of_Z_exp 1 (-1); crossover_probability := of_Z_exp 1 (-1);
     NP := 4; max_generations := 2; initial_guess := Some [of_Z 1; of_Z 1];
     threads := 2 |}.

Lemma candidates_stay_within_bounds_counter :
  let p := params_2d_guess in
  let lo := lower_bounds p in
  let hi := upper_bounds p in
  let g := (2 ^ 29)%N in
  bounds_ok lo hi ∧
  (let pop0 := (Sample.random_initial_population Counter.G Counter.gen lo hi (NP p) g).1 in
   length pop0 = NP p ∧ Forall (within lo hi) pop0) ∧
  (∀ x0, initial_guess p = Some x0 → within lo hi x0) ∧
  (let '(out, r) :=
     Counter.run_de sum_of_squares p quiet_NaN None 8 (λ _, []) g None None in
   Forall (within lo hi) (population (final r)) ∧
   Forall (Forall (within lo hi)) (trials r) ∧
   ∀ x, out = Return x → within lo hi x) ∧
  (fair Counter.gen (NP p) →
   validate_differential_evolution_parameters Sample.validate_bounds
     Sample.validate_initial_guess p = None →
   ∃ fuel' x,
     differential_evolution Counter.G Counter.gen (Sample.unif01 Counter.G Counter.gen)
       Sample.validate_bounds Sample.validate_initial_guess
       (Sample.random_initial_population Counter.G Counter.gen)
       sum_of_squares p quiet_NaN None fuel' (λ _, []) g None None = Return x ∧
     within lo hi x).
Proof.
  intros p lo hi g.
  assert (bounds_ok lo hi) as Hb by (apply bounds_okb_ok; reflexivity).
  assert (let pop0 := (Sample.random_initial_population Counter.G Counter.gen
                         lo hi (NP p) g).1 in
          length pop0 = NP p ∧ Forall (within lo hi) pop0) as Hinit.
  { split; [reflexivity|]. apply forallb_withinb. reflexivity. }
  assert (∀ x0, initial_guess p = Some x0 → within lo hi x0) as Hguess.
  { intros x0 [= <-]. apply withinb_within. reflexivity. }
  split; [exact Hb|]. split; [exact Hinit|]. split; [exact Hguess|].
  exact (candidates_stay_within_bounds Counter.G Counter.gen
           (Sample.unif01 Counter.G Counter.gen)
           Sample.validate_bounds Sample.validate_initial_guess
           (Sample.random_initial_population Counter.G Counter.gen)
           sum_of_squares p quiet_NaN None 8 (λ _, []) g None None Hb Hinit Hguess).
Defined.

(** ** Independence of the schedule (C3)

    When no worker leaves its loop early, an evaluation phase handles every
    slot below [cost.size()] exactly once, and an iteration reads and writes
    only its own slot of [population] and [cost]: the two arrays after the
    phase do not depend on the interleaving. *)

Lemma same_residue_next k i t :
  0 < t → k mod t = i mod t → (k <? i + t) = (k =? i) || (k <? i).
Proof.
  intros Ht Hmod. pose proof (Nat.div_mod_eq k t). pose proof (Nat.div_mod_eq i t).
  destruct (Nat.ltb_spec k (i + t)), (Nat.eqb_spec k i), (Nat.ltb_spec k i);
    simpl; try done; try lia; exfalso.
  - assert (k / t = i / t) by nia. lia.
Qed.

Section ScheduleIndependence.
(** What an iteration at slot [i] writes to [population[i]] and [cost[i]],
    from what it finds there. *)
Variable A : nat → list Real → Real → list Real.
Variable B : nat → list Real → Real → Real.
(** A condition under which no iteration returns early. *)
Variable J : state → Prop.
Variable body : nat → state → bool * state.
Variable threads : nat.
(** [population] and [cost] when the phase starts. *)
Variable pop0 : list (list Real).
Variable cost0 : list Real.

Definition slot_local : Prop :=
  ∀ i st, J st →
    ∃ st', body i st = (true, st') ∧ J st' ∧
      population st' = <[i := A i (population st !!! i) (cost st !!! i)]> (population st) ∧
      cost st' = <[i := B i (population st !!! i) (cost st !!! i)]> (cost st).

(** Has slot [k] been handled, given where the workers are? *)
Definition processed (ws : workers) (k : nat) : bool :=
  match ws !! (k mod threads) with
  | Some (Some next) => k <? next
  | Some None => true
  | None => false
  end.

Definition slot_state (done : bool) (k : nat) (st : state) : Prop :=
  population st !! k =
    (if done then (λ x, A k x (cost0 !!! k)) <$> pop0 !! k else pop0 !! k) ∧
  cost st !! k =
    (if done then B k (pop0 !!! k) <$> cost0 !! k else cost0 !! k).

Definition coherent (c : workers * state) : Prop :=
  J c.2 ∧
  (∀ w next, c.1 !! w = Some (Some next) → next mod threads = w) ∧
  length (cost c.2) = length cost0 ∧
  ∀ k, slot_state ((k <? length cost0) && processed c.1 k) k c.2.

Lemma lookup_total_eq {X} `{!Inhabited X} (l l' : list X) k :
  l !! k = l' !! k → l !!! k = l' !!! k.
Proof. rewrite !list_lookup_total_alt. by intros ->. Qed.

Lemma step_worker_coherent w c :
  slot_local → 0 < threads → coherent c → coherent (step_worker body threads w c).
Proof.
  intros Hlocal Ht. destruct c as [ws st]. intros (HJ & Hres & Hlen & Hslots).
  unfold step_worker. simpl in *.
  destruct (ws !! w) as [[i|]|] eqn:Ew; try done.
  assert (w < length ws) as Hw by (by eapply lookup_lt_Some).
  pose proof (Hres _ _ Ew) as Hi.
  destruct (Nat.ltb_spec i (length (cost st))) as [Hin|Hin].
  - destruct (Hlocal i st HJ) as (st' & -> & HJ' & Hpop & Hcost).
    assert (processed ws i = false) as Hnot.
    { unfold processed. rewrite Hi, Ew. apply Nat.ltb_irrefl. }
    destruct (Hslots i) as [Hpi Hci]. rewrite Hnot, andb_false_r in Hpi, Hci.
    split; [done|]. split; [|split]; simpl.
    + intros w' next. destruct (decide (w = w')) as [<-|Hne].
      * rewrite list_lookup_insert_eq by done. intros [= <-].
        rewrite <- Hi. replace (i + threads) with (i + 1 * threads) by lia.
        apply Nat.Div0.mod_add.
      * rewrite list_lookup_insert_ne by done. apply Hres.
    + by rewrite Hcost, length_insert.
    + intros k. destruct (Hslots k) as [Hpk Hck].
      assert (processed (<[w := Some (i + threads)]> ws) k =
              (k =? i) || processed ws k) as ->.
      { unfold processed. destruct (decide (k mod threads = w)) as [Hk|Hk].
        - rewrite Hk, list_lookup_insert_eq, Ew by done.
          apply same_residue_next; [done|congruence].
        - rewrite list_lookup_insert_ne by done.
          destruct (Nat.eqb_spec k i) as [->|]; [congruence|done]. }
      unfold slot_state. rewrite Hpop, Hcost.
      destruct (Nat.eqb_spec k i) as [->|Hki]; simpl.
      * rewrite (proj2 (Nat.ltb_lt i (length cost0))) by lia. simpl.
        rewrite (lookup_total_eq _ _ _ Hpi), (lookup_total_eq _ _ _ Hci).
        split.
        -- destruct (pop0 !! i) as [x|] eqn:Ex.
           ++ rewrite list_lookup_insert_eq by (by eapply lookup_lt_Some).
              simpl. by rewrite (list_lookup_total_correct _ _ _ Ex).
           ++ rewrite list_insert_ge by (by apply lookup_ge_None). done.
        -- destruct (cost0 !! i) as [x|] eqn:Ex.
           ++ rewrite list_lookup_insert_eq by (by eapply lookup_lt_Some).
              simpl. by rewrite (list_lookup_total_correct _ _ _ Ex).
           ++ rewrite list_insert_ge by (by apply lookup_ge_None). done.
      * by rewrite !list_lookup_insert_ne by done.
  - split; [done|]. split; [|split]; simpl; [|done|].
    + intros w' next. destruct (decide (w = w')) as [<-|Hne].
      * by rewrite list_lookup_insert_eq by done.
      * rewrite list_lookup_insert_ne by done. apply Hres.
    + intros k. specialize (Hslots k).
      replace ((k <? length cost0) && processed (<[w:=None]> ws) k)
        with ((k <? length cost0) && processed ws k); [done|].
      destruct (Nat.ltb_spec k (length cost0)) as [Hk|Hk]; [simpl|done].
      unfold processed. destruct (decide (k mod threads = w)) as [Hkw|Hkw].
      * rewrite Hkw, list_lookup_insert_eq, Ew by done. apply Nat.ltb_lt. lia.
      * by rewrite list_lookup_insert_ne by done.
Qed.

(** Worker [w] has left its loop, or its next index is at least [m]. *)
Definition ahead (m : nat) (ws : workers) (w : nat) : Prop :=
  ws !! w = Some None ∨ ∃ next, ws !! w = Some (Some next) ∧ m ≤ next.

Lemma step_worker_length w c :
  length (step_worker body threads w c).1 = length c.1.
Proof.
  destruct c as [ws st]. unfold step_worker.
  destruct (ws !! w) as [[i|]|]; simpl; try done.
  destruct (i <? _); [destruct (body i st)|]; simpl; by rewrite length_insert.
Qed.

Lemma step_worker_ahead w w' m c :
  ahead m c.1 w' → ahead m (step_worker body threads w c).1 w'.
Proof.
  destruct c as [ws st]. unfold step_worker. simpl. intros H.
  destruct (ws !! w) as [[i|]|] eqn:Ew; try done.
  assert (w < length ws) by (by eapply lookup_lt_Some).
  destruct (decide (w = w')) as [<-|Hne].
  - destruct (i <? _); [destruct (body i st) as [go st']|]; simpl;
      unfold ahead; rewrite list_lookup_insert_eq by done; [|by left].
    destruct go; [right|by left].
    destruct H as [H|(next & H & Hm)]; [congruence|].
    exists (i + threads). split; [done|]. rewrite Ew in H. injection H as <-. lia.
  - destruct (i <? _); [destruct (body i st)|]; simpl;
      unfold ahead; by rewrite list_lookup_insert_ne.
Qed.

Lemma step_worker_ahead_self w m c :
  0 < threads → ahead m c.1 w → ahead (S m) (step_worker body threads w c).1 w.
Proof.
  destruct c as [ws st]. unfold step_worker. simpl. intros Ht H.
  destruct H as [H|(next & H & Hm)]; rewrite H; [by left|].
  assert (w < length ws) by (by eapply lookup_lt_Some).
  destruct (next <? _); [destruct (body next st) as [go st']|]; simpl;
    unfold ahead; rewrite list_lookup_insert_eq by done; [|by left].
  destruct go; [right|by left]. exists (next + threads). split; [done|lia].
Qed.

Lemma run_worker_length n w c :
  length (run_worker n body threads w c).1 = length c.1.
Proof.
  revert c. induction n as [|n IH]; intros c; simpl; [done|].
  by rewrite IH, step_worker_length.
Qed.

Lemma run_worker_ahead n w w' m c :
  ahead m c.1 w' → ahead m (run_worker n body threads w c).1 w'.
Proof.
  revert c. induction n as [|n IH]; intros c H; simpl; [done|].
  by apply IH, step_worker_ahead.
Qed.

Lemma run_worker_ahead_self n w m c :
  0 < threads → ahead m c.1 w → ahead (m + n) (run_worker n body threads w c).1 w.
Proof.
  intros Ht. revert m c. induction n as [|n IH]; intros m c H; simpl.
  - by rewrite Nat.add_0_r.
  - replace (m + S n) with (S m + n) by lia. by apply IH, step_worker_ahead_self.
Qed.

Lemma run_worker_coherent n w c :
  slot_local → 0 < threads → coherent c → coherent (run_worker n body threads w c).
Proof.
  intros Hlocal Ht. revert c. induction n as [|n IH]; intros c H; simpl; [done|].
  by apply IH, step_worker_coherent.
Qed.

Lemma join_rounds m l c :
  slot_local → 0 < threads → coherent c → Forall (λ w, w < length c.1) l →
  let c' := foldl (λ acc w, run_worker m body threads w acc) c l in
  coherent c' ∧ length c'.1 = length c.1 ∧
  (∀ w, ahead m c.1 w → ahead m c'.1 w) ∧ Forall (ahead m c'.1) l.
Proof.
  intros Hlocal Ht. revert c.
  induction l as [|w l IH]; intros c Hc Hl; simpl.
  { split; [done|]. split; [done|]. split; [done|constructor]. }
  apply Forall_cons in Hl as [Hw Hl].
  set (c1 := run_worker m body threads w c).
  assert (length c1.1 = length c.1) as Hlen1 by apply run_worker_length.
  destruct (IH c1) as (IH1 & IH2 & IH3 & IH4).
  { by apply run_worker_coherent. }
  { by rewrite Hlen1. }
  split; [done|]. split; [congruence|]. split.
  - intros w' H. by apply IH3, run_worker_ahead.
  - constructor; [|done]. apply IH3.
    destruct (lookup_lt_is_Some_2 c.1 w Hw) as [[next|] Hnext].
    + apply (run_worker_ahead_self m w 0 c Ht). right. exists next. split; [done|lia].
    + apply run_worker_ahead. by left.
Qed.

Lemma spawn_length : length (spawn threads) = threads.
Proof. unfold spawn. by rewrite length_fmap, length_seq. Qed.

Lemma spawn_lookup w : w < threads → spawn threads !! w = Some (Some w).
Proof.
  intros Hw. unfold spawn. by rewrite list_lookup_fmap, lookup_seq_lt.
Qed.

(** After the phase every slot below [cost.size()] has been handled once. *)
Lemma phase_slots schedule st0 :
  slot_local → 0 < threads → J st0 →
  population st0 = pop0 → cost st0 = cost0 →
  let st' := phase body threads schedule st0 in
  J st' ∧ length (cost st') = length cost0 ∧
  ∀ k, slot_state (k <? length cost0) k st'.
Proof.
  intros Hlocal Ht HJ Hp Hc. unfold phase, join.
  set (c := foldl (λ acc w, step_worker body threads w acc) (spawn threads, st0) schedule).
  assert (coherent c ∧ length c.1 = threads) as [Hcoh Hlen].
  { unfold c. clear c.
    assert (coherent (spawn threads, st0) ∧ length (spawn threads, st0).1 = threads)
      as Hstart.
    { split; [|apply spawn_length].
      split; [done|]. split; [|split]; simpl.
      - intros w next Hw. assert (w < threads) as Hlt.
        { apply lookup_lt_Some in Hw. by rewrite spawn_length in Hw. }
        rewrite spawn_lookup in Hw by done. injection Hw as <-.
        by apply Nat.mod_small.
      - by rewrite Hc.
      - intros k. unfold processed.
        rewrite spawn_lookup by (apply Nat.mod_upper_bound; lia).
        rewrite (proj2 (Nat.ltb_ge k (k mod threads))) by apply Nat.Div0.mod_le.
        rewrite andb_false_r. unfold slot_state. by rewrite Hp, Hc. }
    revert Hstart. generalize (spawn threads, st0).
    induction schedule as [|w l IH]; intros c0 [H1 H2]; simpl; [done|].
    apply IH. split; [by apply step_worker_coherent|].
    by rewrite step_worker_length. }
  destruct (join_rounds (S (length (cost c.2))) (seq 0 threads) c Hlocal Ht Hcoh)
    as (Hcoh' & Hlen' & _ & Hahead).
  { apply Forall_seq. lia. }
  destruct Hcoh' as (HJ' & _ & Hcost & Hslots).
  split; [done|]. split; [done|]. intros k. specialize (Hslots k).
  destruct (Nat.ltb_spec k (length cost0)) as [Hk|Hk]; [|done].
  replace (processed _ k) with true in Hslots; [done|].
  assert (ahead (S (length (cost c.2))) (foldl
            (λ acc w, run_worker (S (length (cost c.2))) body threads w acc) c
            (seq 0 threads)).1 (k mod threads)) as Ha.
  { rewrite Forall_seq in Hahead. apply Hahead.
    pose proof (Nat.mod_upper_bound k threads). lia. }
  destruct Hcoh as (_ & _ & Hc2 & _).
  unfold processed. destruct Ha as [->|(next & -> & Hnext)]; [done|].
  symmetry. apply Nat.ltb_lt. lia.
Qed.
End ScheduleIndependence.

Lemma phase_deterministic A B J body threads s1 s2 st1 st2 :
  slot_local A B J body → 0 < threads → J st1 → J st2 →
  population st1 = population st2 → cost st1 = cost st2 →
  let a := phase body threads s1 st1 in
  let b := phase body threads s2 st2 in
  J a ∧ J b ∧ population a = population b ∧ cost a = cost b.
Proof.
  intros Hlocal Ht H1 H2 Hp Hc a b.
  destruct (phase_slots A B J body threads (population st1) (cost st1) s1 st1
              Hlocal Ht H1 eq_refl eq_refl) as (Ja & _ & Ha).
  destruct (phase_slots A B J body threads (population st1) (cost st1) s2 st2
              Hlocal Ht H2 (eq_sym Hp) (eq_sym Hc)) as (Jb & _ & Hb).
  fold a in Ja, Ha. fold b in Jb, Hb.
  split; [done|]. split; [done|].
  split; apply list_eq; intros k;
    destruct (Ha k) as [Ha1 Ha2], (Hb k) as [Hb1 Hb2]; congruence.
Qed.

(** No target value: the flag [target_attained] is never set. *)
Definition untargeted (st : state) : Prop := target_attained st = false.

Lemma initial_iteration_slot_local cost_function :
  slot_local (λ _ x _, x) (λ _ x _, cost_function x) untargeted
    (initial_iteration cost_function quiet_NaN).
Proof.
  intros i st HJ. eexists. split; [done|]. unfold untargeted in *. simpl.
  split; [by rewrite HJ|]. split; [|done].
  symmetry. apply list_insert_id'. intros Hi. by apply list_lookup_lookup_total_lt.
Qed.

Lemma trial_iteration_slot_local cost_function trial_vectors :
  slot_local
    (λ i x c, if accepts (cost_function (trial_vectors !!! i)) c
              then trial_vectors !!! i else x)
    (λ i _ c, if accepts (cost_function (trial_vectors !!! i)) c
              then cost_function (trial_vectors !!! i) else c)
    untargeted
    (trial_iteration cost_function quiet_NaN None trial_vectors).
Proof.
  intros i st HJ. unfold untargeted in *. unfold trial_iteration. rewrite HJ. simpl.
  eexists. split; [done|].
  pose proof (select_follows_rule cost_function quiet_NaN trial_vectors i st)
    as Hsel.
  unfold selection_rule in Hsel. simpl in Hsel.
  assert (target_attained (select cost_function quiet_NaN trial_vectors i st) = false)
    as Ht.
  { unfold select. destruct (isnan _); [done|].
    destruct (flt _ _ || isnan _); simpl; by rewrite ?HJ. }
  split; [done|].
  destruct (accepts _ _); destruct Hsel as [-> ->]; split; try done;
    symmetry; apply list_insert_id'; intros Hi;
    by apply list_lookup_lookup_total_lt.
Qed.

(** Two runs agree on what the caller can observe of the search: the outcome,
    the final population and costs, the generator, and every trial vector. *)
Definition same_result {G : Type} (a b : outcome (list Real) * run G) : Prop :=
  a.1 = b.1 ∧
  population (final a.2) = population (final b.2) ∧
  cost (final a.2) = cost (final b.2) ∧
  rng a.2 = rng b.2 ∧
  trials a.2 = trials b.2.

Section Determinism.
Variable G : Type.
Variable gen : G → N * G.
Variable unif01 : G → Real * G.
Variable cost_function : list Real → Real.
Variable p : differential_evolution_parameters.
Variable fuel : nat.
Variable s1 s2 : nat → list nat.

Lemma generations_deterministic n generation (r1 r2 : run G) :
  0 < threads p →
  untargeted (final r1) → untargeted (final r2) →
  population (final r1) = population (final r2) →
  cost (final r1) = cost (final r2) →
  rng r1 = rng r2 → trials r1 = trials r2 →
  let a := generations G gen unif01 cost_function p quiet_NaN None fuel s1 n
             generation r1 in
  let b := generations G gen unif01 cost_function p quiet_NaN None fuel s2 n
             generation r2 in
  a.1 = b.1 ∧
  population (final a.2) = population (final b.2) ∧
  cost (final a.2) = cost (final b.2) ∧
  rng a.2 = rng b.2 ∧ trials a.2 = trials b.2.
Proof.
  intros Ht. revert generation r1 r2.
  induction n as [|n IH]; intros generation r1 r2 J1 J2 Hp Hc Hg Htr; simpl; [done|].
  unfold untargeted in J1, J2. rewrite J1, J2, <- Hp, <- Hg.
  destruct (make_trials _ _ _ _ _ _ _ _) as [[tv g']|]; [|done].
  destruct (phase_deterministic _ _ _ _ (threads p)
              (s1 (S generation)) (s2 (S generation)) (final r1) (final r2)
              (trial_iteration_slot_local cost_function tv) Ht J1 J2 Hp Hc)
    as (Ja & Jb & Hp' & Hc').
  apply IH; simpl; try done. by rewrite Htr.
Qed.
End Determinism.

(** C3 (amended): with no target value (NaN) and no cancellation flag, two
    calls with the same generator state, the same parameters (thread count
    included) and the same cost function end alike under any two schedules of
    the worker threads: same outcome and returned candidate, same final
    population and costs, same trial vectors in every generation, same
    generator state. *)
Theorem deterministic_without_early_exit
    G gen unif01 validate_bounds validate_initial_guess random_initial_population
    cost_function p fuel s1 s2 g q1 q2 cmc1 cmc2 :
  same_result
    (differential_evolution_run G gen unif01 validate_bounds validate_initial_guess
       random_initial_population cost_function p quiet_NaN None fuel s1 g q1 cmc1)
    (differential_evolution_run G gen unif01 validate_bounds validate_initial_guess
       random_initial_population cost_function p quiet_NaN None fuel s2 g q2 cmc2).
Proof.
  unfold same_result, differential_evolution_run.
  destruct (validate_differential_evolution_parameters _ _ _) eqn:Ev; [done|].
  apply validation_passed in Ev as (_ & _ & _ & Ht).
  destruct (random_initial_population _ _ _ _) as [pop0 g0].
  match goal with
  | |- context [phase ?b ?t (s1 0) ?sta] =>
      match goal with
      | |- context [phase b t (s2 0) ?stb] =>
          destruct (phase_deterministic _ _ _ _ t (s1 0) (s2 0) sta stb
                      (initial_iteration_slot_local cost_function) Ht
                      eq_refl eq_refl eq_refl eq_refl) as (Ja & Jb & Hp & Hc)
      end
  end.
  match goal with
  | |- context [generations G gen unif01 cost_function p quiet_NaN None fuel s1 ?n ?k ?ra] =>
      match goal with
      | |- context [generations G gen unif01 cost_function p quiet_NaN None fuel s2 n k ?rb] =>
          pose proof (generations_deterministic G gen unif01 cost_function p fuel
                        s1 s2 n k ra rb Ht Ja Jb Hp Hc eq_refl eq_refl) as H;
          destruct (generations G gen unif01 cost_function p quiet_NaN None fuel s1 n k ra)
            as [fa ra'];
          destruct (generations G gen unif01 cost_function p quiet_NaN None fuel s2 n k rb)
            as [fb rb']
      end
  end.
  simpl in H. destruct H as (-> & Hp' & Hc' & Hg' & Ht').
  simpl. rewrite Hp', Hc'. done.
Qed.

(** One dimension on [-8,8], two threads, population [6], [4], [-4], [-2] with
    costs 36, 16, 16, 4 under the sum of squares, target value 1. The trial of
    slot 0 is [-1] (cost 1) and the trial of slot 1 is [0] (cost 0): each
    attains the target, and whichever worker runs first stops the other. *)
Definition params_two_threads : differential_evolution_parameters :=
  {| lower_bounds := [of_Z (-8)]; upper_bounds := [of_Z 8];
     mutation_factor := of_Z_exp 1 (-1); crossover_probability := of_Z_exp 1 (-1);
     NP := 4; max_generations := 1; initial_guess := None; threads := 2 |}.

Definition tape_two_threads : list N :=
  [eighth 7; eighth 6; eighth 2; eighth 3;
   2; 1; 3; 0; 0;   2; 0; 3; 0; 0;   0; 1; 3; 0; 0;   0; 1; 2; 0; 0]%N.

(** In the first trial phase worker [w] runs one iteration before any other. *)
Definition worker_first (w : nat) (k : nat) : list nat :=
  match k with
  | 1 => [w]
  | _ => []
  end.

(** C3 as stated fails: same generator, same two threads, same cost function,
    but with a target value the call returns [-1] when worker 0 runs first and
    [0] when worker 1 runs first. *)
Lemma early_exit_depends_on_schedule :
  ¬ same_result
      (Replay.run_de sum_of_squares params_two_threads one None 1 (worker_first 0)
         tape_two_threads None None)
      (Replay.run_de sum_of_squares params_two_threads one None 1 (worker_first 1)
         tape_two_threads None None).
Proof. unfold same_result. vm_compute. intros [H _]. discriminate H. Qed.

Example early_exit_two_outcomes :
  (Replay.run_de sum_of_squares params_two_threads one None 1 (worker_first 0)
     tape_two_threads None None).1 = Return [of_Z (-1)] ∧
  (Replay.run_de sum_of_squares params_two_threads one None 1 (worker_first 1)
     tape_two_threads None None).1 = Return [of_Z 0].
Proof. vm_compute. done. Qed.

(** * Further properties of the code *)

(** ** What validation accepts *)

Lemma not_fle_flt x y :
  isnan x = false → isnan y = false → fle x y = false → flt y x = true.
Proof.
  intros Hx Hy. destruct (SFcompare_Some x y Hx Hy) as [c Hc].
  unfold flt, fle, SFltb, SFleb. rewrite (SFcompare_opp x y), Hc.
  by destruct c.
Qed.

Lemma strictly_between_zero_one F :
  isnan F || fle one F || fle F zero = false ↔
  flt zero F = true ∧ flt F one = true.
Proof.
  rewrite !orb_false_iff. split.
  - intros [[Hn H1] H0]. split; by apply not_fle_flt.
  - intros [H0 H1]. destruct (flt_not_nan _ _ H0) as [_ Hn].
    repeat split; [done| |].
    + destruct (fle one F) eqn:E; [|done]. by rewrite (fle_not_flt _ _ E) in H1.
    + destruct (fle F zero) eqn:E; [|done]. by rewrite (fle_not_flt _ _ E) in H0.
Qed.

Lemma validation_passes_iff validate_bounds validate_initial_guess p :
  validate_differential_evolution_parameters validate_bounds validate_initial_guess p
    = None ↔
  validate_bounds (lower_bounds p) (upper_bounds p) = None ∧
  4 ≤ NP p ∧
  (flt zero (mutation_factor p) = true ∧ flt (mutation_factor p) one = true ∧
   isfinite (mutation_factor p) = true) ∧
  1 ≤ max_generations p ∧
  (∀ x0, initial_guess p = Some x0 →
         validate_initial_guess x0 (lower_bounds p) (upper_bounds p) = None) ∧
  1 ≤ threads p.
Proof.
  unfold validate_differential_evolution_parameters.
  destruct (validate_bounds _ _) as [e|]; [split; [done|by intros [? _]]|].
  destruct (Nat.ltb_spec (NP p) 4) as [HNP|HNP]; [split; [done|lia]|].
  destruct (isnan (mutation_factor p) || fle one (mutation_factor p)
            || fle (mutation_factor p) zero) eqn:EF.
  { split; [done|]. intros (_ & _ & (H0 & H1 & _) & _).
    assert (isnan (mutation_factor p) || fle one (mutation_factor p)
            || fle (mutation_factor p) zero = false) as Hc
      by (by apply strictly_between_zero_one).
    congruence. }
  pose proof (proj1 (strictly_between_zero_one _) EF) as [H0 H1].
  assert (isfinite (mutation_factor p) = true) as Hfin.
  { apply orb_false_iff in EF as [EF E0]. apply orb_false_iff in EF as [En E1].
    destruct (mutation_factor_shape _ En E1 E0) as (m & e & ->). done. }
  simpl. destruct (Nat.ltb_spec (max_generations p) 1) as [Hg|Hg]; [split; [done|lia]|].
  destruct (initial_guess p) as [x0|].
  - destruct (validate_initial_guess x0 _ _) as [e|] eqn:Ev.
    { split; [done|]. intros (_ & _ & _ & _ & Hx & _).
      specialize (Hx x0 eq_refl). congruence. }
    destruct (Nat.eqb_spec (threads p) 0) as [Ht|Ht]; [split; [done|lia]|].
    split; [|done]. intros _. repeat split; try done; try lia.
    by intros y [= <-].
  - destruct (Nat.eqb_spec (threads p) 0) as [Ht|Ht]; [split; [done|lia]|].
    split; [|done]. intros _. repeat split; try done; lia.
Qed.

(** [validate_differential_evolution_parameters] returns normally exactly when
    the bounds pass, NP >= 4, 0 < F < 1 (so F is neither NaN nor infinite),
    there is at least one generation, the initial guess, if any, passes, and
    there is at least one thread. *)
Theorem validation_accepts_iff validate_bounds validate_initial_guess p :
  validate_differential_evolution_parameters validate_bounds validate_initial_guess p
    = None ↔
  validate_bounds (lower_bounds p) (upper_bounds p) = None ∧
  4 ≤ NP p ∧
  (flt zero (mutation_factor p) = true ∧ flt (mutation_factor p) one = true ∧
   isfinite (mutation_factor p) = true) ∧
  1 ≤ max_generations p ∧
  (∀ x0, initial_guess p = Some x0 →
         validate_initial_guess x0 (lower_bounds p) (upper_bounds p) = None) ∧
  1 ≤ threads p.
Proof. apply validation_passes_iff. Qed.

(** ** The default parameters *)

(** [static_cast<Real>(0.65)]: the double nearest to 0.65. *)
Definition default_mutation_factor : Real :=
  S754_finite false 5854679515581645 (-53).

Example default_mutation_factor_value :
  default_mutation_factor = SFdiv prec emax (of_Z 65) (of_Z 100).
Proof. reflexivity. Qed.

(** The member initializers of [differential_evolution_parameters], for given
    bounds; [hardware_concurrency] is what
    [std::thread::hardware_concurrency()] returns, which may be 0. *)
Definition default_parameters (lo hi : list Real) (hardware_concurrency : nat)
    : differential_evolution_parameters :=
  {| lower_bounds := lo; upper_bounds := hi;
     mutation_factor := default_mutation_factor;
     crossover_probability := of_Z_exp 1 (-1);
     NP := 500; max_generations := 1000;
     initial_guess := None;
     threads := hardware_concurrency |}.

(** A parameter set that keeps every default passes validation exactly when its
    bounds pass and [std::thread::hardware_concurrency()] did not return 0;
    where it returns 0 the defaults are rejected for having no thread. *)
Theorem default_parameters_accepted_iff
    validate_bounds validate_initial_guess lo hi hardware_concurrency :
  validate_differential_evolution_parameters validate_bounds validate_initial_guess
    (default_parameters lo hi hardware_concurrency) = None ↔
  validate_bounds lo hi = None ∧ hardware_concurrency ≠ 0.
Proof.
  rewrite validation_passes_iff. simpl. split.
  - intros (? & _ & _ & _ & _ & ?). split; [done|lia].
  - intros [? ?]. repeat split; try done; try lia.
Qed.

(** ** The slot the final scan picks *)

(** [std::min_element] over the costs: if the first cost is NaN (or there is
    none) the scan stays at index 0; otherwise it returns an index in range
    whose cost is a number, is less than or equal to every other cost that is
    a number, and is strictly less than every such cost at a lower index. *)
Theorem min_element_lowest_least l :
  (isnan (l !!! 0) = true → min_element l = 0) ∧
  (isnan (l !!! 0) = false →
   let k := min_element l in
   k < length l ∧ isnan (l !!! k) = false ∧
   (∀ j, j < length l → isnan (l !!! j) = false → fle (l !!! k) (l !!! j) = true) ∧
   (∀ j, j < k → isnan (l !!! j) = true ∨ flt (l !!! k) (l !!! j) = true)).
Proof.
  destruct l as [|x l]; [by split|]. split.
  - simpl. intros Hx. destruct x; try done. apply min_element_nan_head.
  - intros Hx k. simpl in Hx.
    destruct (min_element_least x l Hx) as (m & Hk & Hm & Hle & Hlt). fold k in Hk, Hlt.
    rewrite (list_lookup_total_correct _ _ _ Hk).
    split; [by eapply lookup_lt_Some|]. split; [done|]. split.
    + intros j Hj Hnan. eapply Hle; [|done].
      by apply list_lookup_lookup_total_lt.
    + intros j Hj. eapply Hlt; [done|].
      apply list_lookup_lookup_total_lt. apply lookup_lt_Some in Hk. lia.
Qed.

(** ** A stopped search evaluates nothing *)

(** A trial phase entered with [target_attained] set, or with a cancellation
    flag that reads true at every poll, calls the cost function for no slot:
    population, costs, query log, hint and flag are what they were, under every
    schedule and every number of threads. *)
Theorem stopped_phase_evaluates_nothing
    cost_function target_value cancellation trial_vectors threads schedule st :
  target_attained st = true ∨
  (∃ observed, cancellation = Some observed ∧ ∀ k, observed k = true) →
  let st' := phase (trial_iteration cost_function target_value cancellation
                      trial_vectors) threads schedule st in
  evals st' = evals st ∧ population st' = population st ∧ cost st' = cost st ∧
  queries st' = queries st ∧ current_minimum_cost st' = current_minimum_cost st ∧
  target_attained st' = target_attained st.
Proof.
  intros Hstop.
  apply (phase_invariant (λ st', evals st' = evals st ∧ population st' = population st ∧
           cost st' = cost st ∧ queries st' = queries st ∧
           current_minimum_cost st' = current_minimum_cost st ∧
           target_attained st' = target_attained st)); [|by repeat split].
  intros i st' (He & Hp & Hc & Hq & Hm & Ht). unfold trial_iteration.
  destruct (target_attained st') eqn:Et; [simpl; repeat split; congruence|].
  destruct Hstop as [Hstop|(observed & -> & Hobs)]; [congruence|].
  simpl. rewrite Hobs. simpl. repeat split; congruence.
Qed.

Lemma stopped_phase_witness :
  let st := {| population := [[of_Z 3]]; cost := [of_Z 9]; target_attained := true;
               queries := None; current_minimum_cost := None; polls := 0;
               evals := [] |} in
  (target_attained st = true ∨
   (∃ observed, (None : option (nat → bool)) = Some observed ∧ ∀ k, observed k = true)) ∧
  let st' := phase (trial_iteration sum_of_squares (of_Z 10) None [[of_Z 1]])
               1 [] st in
  evals st' = evals st ∧ population st' = population st ∧ cost st' = cost st ∧
  queries st' = queries st ∧ current_minimum_cost st' = current_minimum_cost st ∧
  target_attained st' = target_attained st.
Proof.
  intros st.
  assert (target_attained st = true ∨
    (∃ observed, (None : option (nat → bool)) = Some observed ∧ ∀ k, observed k = true))
    as H by (left; reflexivity).
  split; [exact H|].
  exact (stopped_phase_evaluates_nothing sum_of_squares (of_Z 10) None [[of_Z 1]]
           1 [] st H).
Defined.

(** ** The initial scoring phase *)

Lemma initial_iteration_local cost_function target_value :
  slot_local (λ _ x _, x) (λ _ x _, cost_function x) (λ _, True)
    (initial_iteration cost_function target_value).
Proof.
  intros i st _. eexists. split; [done|]. split; [done|]. split; [|done]. simpl.
  symmetry. apply list_insert_id'. intros Hi. by apply list_lookup_lookup_total_lt.
Qed.

Lemma initial_phase_costs cost_function target_value threads schedule st :
  0 < threads →
  let st' := phase (initial_iteration cost_function target_value) threads schedule st in
  population st' = population st ∧ length (cost st') = length (cost st) ∧
  ∀ i, i < length (cost st) → cost st' !!! i = cost_function (population st !!! i).
Proof.
  intros Ht st'.
  destruct (phase_slots _ _ _ _ threads (population st) (cost st) schedule st
              (initial_iteration_local cost_function target_value) Ht I eq_refl eq_refl)
    as (_ & Hlen & Hslots).
  fold st' in Hlen, Hslots. split; [|split; [done|]].
  - apply list_eq. intros k. destruct (Hslots k) as [-> _].
    destruct (k <? _); [|done]. by destruct (population st !! k).
  - intros i Hi. destruct (Hslots i) as [_ Hc].
    rewrite (proj2 (Nat.ltb_lt _ _) Hi) in Hc.
    rewrite (list_lookup_lookup_total_lt (cost st) i Hi) in Hc. simpl in Hc.
    by apply list_lookup_total_correct.
Qed.

(** With at least one thread, under every schedule, the initial phase leaves
    the population as it was and stores in every [cost[i]] the cost function's
    value at [population[i]], NaN included, whatever the target value. *)
Theorem initial_phase_scores_every_slot
    cost_function target_value threads schedule st :
  0 < threads →
  let st' := phase (initial_iteration cost_function target_value) threads schedule st in
  population st' = population st ∧ length (cost st') = length (cost st) ∧
  ∀ i, i < length (cost st) → cost st' !!! i = cost_function (population st !!! i).
Proof. apply initial_phase_costs. Qed.

Lemma initial_phase_witness :
  let st := {| population := [[of_Z 1]; [of_Z 2]; [of_Z 3]];
               cost := replicate 3 quiet_NaN; target_attained := false;
               queries := None; current_minimum_cost := None; polls := 0;
               evals := [] |} in
  0 < 2 ∧
  let st' := phase (initial_iteration sum_of_squares (of_Z 4)) 2 [1; 0; 1] st in
  population st' = population st ∧ length (cost st') = length (cost st) ∧
  ∀ i, i < length (cost st) → cost st' !!! i = sum_of_squares (population st !!! i).
Proof.
  intros st. assert (0 < 2) as H by lia. split; [exact H|].
  exact (initial_phase_scores_every_slot sum_of_squares (of_Z 4) 2 [1; 0; 1] st H).
Defined.

(** ** Invariants that need the loop guard [i < cost.size()] *)

Section GuardedInvariant.
Variable I : state → Prop.
Variable body : nat → state → bool * state.
Variable threads : nat.
Hypothesis body_preserves : ∀ i st, I st → i < length (cost st) → I (body i st).2.

Lemma step_worker_guarded w c : I c.2 → I (step_worker body threads w c).2.
Proof using body_preserves.
  destruct c as [ws st]. unfold step_worker. simpl. intros H.
  destruct (ws !! w) as [[i|]|]; try done.
  destruct (Nat.ltb_spec i (length (cost st))) as [Hi|Hi]; try done.
  specialize (body_preserves i st H Hi). by destruct (body i st).
Qed.

Lemma run_worker_guarded n w c : I c.2 → I (run_worker n body threads w c).2.
Proof using body_preserves.
  revert c. induction n as [|n IH]; intros c H; simpl; [done|].
  by apply IH, step_worker_guarded.
Qed.

Lemma phase_guarded schedule st : I st → I (phase body threads schedule st).
Proof using body_preserves.
  intros H. unfold phase, join. apply foldl_invariant.
  { intros c w. apply run_worker_guarded. }
  apply foldl_invariant; [|done]. intros c w. apply step_worker_guarded.
Qed.
End GuardedInvariant.

Section GenerationsInvariant.
Variable G : Type.
Variable gen : G → N * G.
Variable unif01 : G → Real * G.
Variable cost_function : list Real → Real.
Variable p : differential_evolution_parameters.
Variable target_value : Real.
Variable cancellation : option (nat → bool).
Variable I : state → Prop.

(** An invariant of the trial iterations that does not depend on the poll
    counter is an invariant of the generation loop. *)
Lemma generations_invariant fuel schedule n generation (r : run G) :
  (∀ st, I st → I (poll_cancellation cancellation st).2) →
  (∀ trial_vectors i st, I st → i < length (cost st) →
     I (trial_iteration cost_function target_value cancellation trial_vectors i st).2) →
  I (final r) →
  I (final (generations G gen unif01 cost_function p target_value cancellation
              fuel schedule n generation r).2).
Proof.
  intros Hpoll Hbody. revert generation r.
  induction n as [|n IH]; intros generation r H; simpl; [done|].
  specialize (Hpoll _ H).
  destruct (poll_cancellation cancellation (final r)) as [[] st1]; [done|].
  simpl in Hpoll. destruct (target_attained st1); [done|].
  destruct (make_trials _ _ _ _ _ _ _ _) as [[tv g']|]; [|done].
  apply IH. simpl. apply phase_guarded; [|done]. intros i st. apply Hbody.
Qed.
End GenerationsInvariant.

(** ** Every slot keeps its lineage *)

(** Slot [i] of [st'] is slot [i] of [st], or it is the trial for slot [i]
    with its cost, and then that cost is a number that beat the cost of [st]. *)
Definition kept_or_replaced (cost_function : list Real → Real)
    (trial_vectors : list (list Real)) (st st' : state) (i : nat) : Prop :=
  (population st' !!! i = population st !!! i ∧ cost st' !!! i = cost st !!! i) ∨
  (population st' !!! i = trial_vectors !!! i ∧
   cost st' !!! i = cost_function (trial_vectors !!! i) ∧
   accepts (cost_function (trial_vectors !!! i)) (cost st !!! i) = true).

Lemma accepts_irrefl c : accepts c c = false.
Proof. unfold accepts. rewrite flt_irrefl. by destruct (isnan c). Qed.

Lemma select_lineage cost_function target_value trial_vectors st j st' :
  length (population st') = length (cost st') →
  (∀ i, kept_or_replaced cost_function trial_vectors st st' i) →
  let st'' := select cost_function target_value trial_vectors j st' in
  length (population st'') = length (cost st'') ∧
  ∀ i, kept_or_replaced cost_function trial_vectors st st'' i.
Proof.
  intros Hlen H st''.
  pose proof (select_follows_rule cost_function target_value trial_vectors j st') as Hr.
  unfold selection_rule in Hr. fold st'' in Hr. simpl in Hr.
  destruct (accepts _ _) eqn:Ea; destruct Hr as [Hp Hc].
  - split; [by rewrite Hp, Hc, !length_insert|]. intros i.
    unfold kept_or_replaced. rewrite Hp, Hc, !list_lookup_total_insert.
    case_decide as H1; case_decide as H2; try (exfalso; lia); [|apply H].
    destruct H1 as [<- _]. right. split; [done|]. split; [done|].
    destruct (H j) as [[_ <-]|(_ & Hcj & _)]; [done|].
    by rewrite Hcj, accepts_irrefl in Ea.
  - split; [by rewrite Hp, Hc|]. intros i. unfold kept_or_replaced.
    rewrite Hp, Hc. apply H.
Qed.

(** After a trial phase, under every schedule and whether or not workers
    returned early, each slot is either untouched or holds its own trial vector
    together with that trial's cost, and the second only if the trial's cost
    is not NaN and was less than the slot's cost (or that cost was NaN): no
    slot ever receives the trial of another slot. *)
Theorem trial_phase_keeps_lineage
    cost_function target_value cancellation trial_vectors threads schedule st :
  length (population st) = length (cost st) →
  let st' := phase (trial_iteration cost_function target_value cancellation
                      trial_vectors) threads schedule st in
  ∀ i, kept_or_replaced cost_function trial_vectors st st' i.
Proof.
  intros Hlen.
  apply (phase_invariant (λ st', length (population st') = length (cost st') ∧
           ∀ i, kept_or_replaced cost_function trial_vectors st st' i)).
  - intros j st' [Hl H]. unfold trial_iteration, poll_cancellation.
    destruct (target_attained st'); [done|].
    destruct cancellation as [observed|]; [destruct (observed _)|]; simpl;
      try done; by apply select_lineage.
  - split; [done|]. intros i. by left.
Qed.

Lemma trial_phase_lineage_witness :
  let st := {| population := [[of_Z 3]; [of_Z 1]]; cost := [of_Z 9; of_Z 1];
               target_attained := false; queries := None;
               current_minimum_cost := None; polls := 0; evals := [] |} in
  length (population st) = length (cost st) ∧
  let st' := phase (trial_iteration sum_of_squares quiet_NaN None
                      [[of_Z 2]; [of_Z 2]]) 2 [1] st in
  ∀ i, kept_or_replaced sum_of_squares [[of_Z 2]; [of_Z 2]] st st' i.
Proof.
  intros st. assert (length (population st) = length (cost st)) as H by reflexivity.
  split; [exact H|].
  exact (trial_phase_keeps_lineage sum_of_squares quiet_NaN None
           [[of_Z 2]; [of_Z 2]] 2 [1] st H).
Defined.

(** ** Costs stay in step with the population *)

(** [population] after [population[0] = *initial_guess]. *)
Definition initial_population {G : Type}
    (random_initial_population : list Real → list Real → nat → G → list (list Real) * G)
    (p : differential_evolution_parameters) (g : G) : list (list Real) :=
  let pop0 := (random_initial_population (lower_bounds p) (upper_bounds p) (NP p) g).1 in
  match initial_guess p with
  | Some x0 => <[0 := x0]> pop0
  | None => pop0
  end.

(** Every recorded cost is the cost function's value at the candidate in the
    same slot. *)
Definition in_step (cost_function : list Real → Real) (st : state) : Prop :=
  length (population st) = length (cost st) ∧
  ∀ i, i < length (cost st) → cost st !!! i = cost_function (population st !!! i).

Lemma select_in_step cost_function target_value trial_vectors j st :
  in_step cost_function st →
  in_step cost_function (select cost_function target_value trial_vectors j st).
Proof.
  intros [Hlen H].
  pose proof (select_follows_rule cost_function target_value trial_vectors j st) as Hr.
  unfold selection_rule in Hr. simpl in Hr. unfold in_step.
  destruct (accepts _ _); destruct Hr as [-> ->]; [|done].
  rewrite !length_insert. split; [done|]. intros i Hi.
  rewrite !list_lookup_total_insert, Hlen.
  case_decide as H1; [done|]. by apply H.
Qed.

Lemma trial_iteration_in_step cost_function target_value cancellation
    trial_vectors i st :
  in_step cost_function st →
  in_step cost_function
    (trial_iteration cost_function target_value cancellation trial_vectors i st).2.
Proof.
  intros H. unfold trial_iteration, poll_cancellation.
  destruct (target_attained st); [done|].
  destruct cancellation as [observed|]; [destruct (observed _)|]; simpl;
    try done; by apply select_in_step.
Qed.

Lemma run_in_step
    G gen unif01 validate_bounds validate_initial_guess random_initial_population
    cost_function p target_value cancellation fuel schedule g q cmc :
  length (random_initial_population (lower_bounds p) (upper_bounds p) (NP p) g).1
    = NP p →
  in_step cost_function
    (final (differential_evolution_run G gen unif01 validate_bounds
              validate_initial_guess random_initial_population cost_function p
              target_value cancellation fuel schedule g q cmc).2).
Proof.
  intros Hlen. unfold differential_evolution_run.
  destruct (validate_differential_evolution_parameters _ _ _) eqn:Ev.
  { split; [done|]. intros i Hi. simpl in Hi. lia. }
  apply validation_passed in Ev as (_ & _ & _ & Ht).
  destruct (random_initial_population _ _ _ _) as [pop0 g0]. simpl in Hlen.
  match goal with
  | |- context [generations ?G ?gen ?u ?f ?p ?t ?c ?fu ?s ?n ?k ?r] =>
      pose proof (generations_invariant G gen u f p t c (in_step f) fu s n k r) as H;
      destruct (generations G gen u f p t c fu s n k r) as [finished r']
  end.
  simpl in *. apply H.
  - intros st. unfold poll_cancellation. by destruct cancellation.
  - intros tv i st Hst _. by apply trial_iteration_in_step.
  - match goal with
    | |- in_step _ (phase _ _ ?sched ?st0) =>
        destruct (initial_phase_costs cost_function target_value (threads p) sched st0 Ht)
          as (Hp & Hl & Hc)
    end.
    simpl in *. split.
    + rewrite Hp, Hl, length_replicate. destruct (initial_guess p);
        by rewrite ?length_insert.
    + intros i Hi. rewrite Hl in Hi. rewrite Hp. by apply Hc.
Qed.

(** If the initializer returns NP candidates, then at the end of the call
    (returned, thrown or out of fuel) every [cost[i]] is the cost function's
    value at [population[i]], and a returned candidate is a member of the final
    population whose recorded cost is the cost function's value at it. *)
Theorem costs_in_step_with_population
    G gen unif01 validate_bounds validate_initial_guess random_initial_population
    cost_function p target_value cancellation fuel schedule g q cmc :
  length (random_initial_population (lower_bounds p) (upper_bounds p) (NP p) g).1
    = NP p →
  let '(out, r) :=
    differential_evolution_run G gen unif01 validate_bounds validate_initial_guess
      random_initial_population cost_function p target_value cancellation
      fuel schedule g q cmc in
  in_step cost_function (final r) ∧
  ∀ x, out = Return x →
    let k := min_element (cost (final r)) in
    population (final r) !! k = Some x ∧ cost (final r) !! k = Some (cost_function x).
Proof.
  intros Hlen.
  pose proof (run_in_step G gen unif01 validate_bounds validate_initial_guess
                random_initial_population cost_function p target_value cancellation
                fuel schedule g q cmc Hlen) as Hstep.
  unfold differential_evolution_run in *.
  destruct (validate_differential_evolution_parameters _ _ _) eqn:Ev; [done|].
  apply validation_passed in Ev as (HNP & _).
  destruct (random_initial_population _ _ _ _) as [pop0 g0].
  match goal with
  | |- context [generations ?G ?gen ?u ?f ?p ?t ?c ?fu ?s ?n ?k ?r] =>
      pose proof (generations_invariant G gen u f p t c
                    (λ st, length (cost st) = NP p) fu s n k r) as Hn;
      destruct (generations G gen u f p t c fu s n k r) as [finished r']
  end.
  simpl in *. split; [done|]. intros x. destruct finished; [|done]. intros [= <-].
  assert (length (cost (final r')) = NP p) as Hcost.
  { apply Hn.
    - intros st. unfold poll_cancellation. by destruct cancellation.
    - intros tv i st Hst _. unfold trial_iteration, poll_cancellation.
      destruct (target_attained st); [done|].
      destruct cancellation as [observed|]; [destruct (observed _)|]; simpl;
        try done; unfold select; destruct (isnan _); try done;
        destruct (flt _ _ || isnan _); simpl; by rewrite ?length_insert.
    - apply (phase_invariant (λ st, length (cost st) = NP p)).
      + intros i st Hst. simpl. by rewrite length_insert.
      + simpl. by rewrite length_replicate. }
  destruct Hstep as [Hl Hc].
  assert (min_element (cost (final r')) < length (cost (final r'))) as Hk
    by (apply min_element_lt; lia).
  split.
  - apply list_lookup_lookup_total_lt. by rewrite Hl.
  - rewrite <- (Hc _ Hk). by apply list_lookup_lookup_total_lt.
Qed.

Lemma costs_in_step_witness :
  let p := params_two_threads in
  length (Sample.random_initial_population Replay.G Replay.gen (lower_bounds p)
            (upper_bounds p) (NP p) tape_two_threads).1 = NP p ∧
  let '(out, r) :=
    Replay.run_de sum_of_squares p one None 1 (worker_first 1) tape_two_threads
      None None in
  in_step sum_of_squares (final r) ∧
  ∀ x, out = Return x →
    let k := min_element (cost (final r)) in
    population (final r) !! k = Some x ∧ cost (final r) !! k = Some (sum_of_squares x).
Proof.
  intros p.
  assert (length (Sample.random_initial_population Replay.G Replay.gen (lower_bounds p)
            (upper_bounds p) (NP p) tape_two_threads).1 = NP p) as H by reflexivity.
  split; [exact H|].
  exact (costs_in_step_with_population Replay.G Replay.gen
           (Sample.unif01 Replay.G Replay.gen) Sample.validate_bounds
           Sample.validate_initial_guess
           (Sample.random_initial_population Replay.G Replay.gen)
           sum_of_squares p one None 1 (worker_first 1) tape_two_threads None None H).
Defined.

(** ** The flag [target_attained] *)

(** The flag is set exactly when some recorded cost is at or below the target
    value. *)
Definition flag_tells (target_value : Real) (st : state) : Prop :=
  target_attained st = true ↔ ∃ i, hits_target target_value (cost st !!! i) = true.

(** A recorded cost is NaN or the cost function's value at its candidate. *)
Definition scored_or_nan (cost_function : list Real → Real) (st : state) : Prop :=
  ∀ i, isnan (cost st !!! i) = true ∨ cost st !!! i = cost_function (population st !!! i).

Lemma hits_target_spec target_value c :
  hits_target target_value c = true ↔
  isnan target_value = false ∧ fle c target_value = true.
Proof.
  unfold hits_target. rewrite andb_true_iff, negb_true_iff. done.
Qed.


Lemma initial_iteration_flag cost_function target_value i st :
  flag_tells target_value st ∧ scored_or_nan cost_function st →
  i < length (cost st) →
  let st' := (initial_iteration cost_function target_value i st).2 in
  flag_tells target_value st' ∧ scored_or_nan cost_function st'.
Proof.
  intros [Hflag Hk] Hi. simpl. unfold flag_tells in Hflag. split.
  - unfold flag_tells. simpl. rewrite orb_true_iff, Hflag. split.
    + intros [[j Hj]|Hc].
      * destruct (decide (j = i)) as [->|Hne].
        -- exists i. rewrite list_lookup_total_insert_eq by done.
           destruct (Hk i) as [Hn|<-]; [|done].
           apply hits_target_spec in Hj as [_ Hj].
           destruct (fle_not_nan _ _ Hj). congruence.
        -- exists j. by rewrite list_lookup_total_insert_ne.
      * exists i. by rewrite list_lookup_total_insert_eq.
    + intros [j Hj]. destruct (decide (j = i)) as [->|Hne].
      * right. by rewrite list_lookup_total_insert_eq in Hj.
      * left. exists j. by rewrite list_lookup_total_insert_ne in Hj.
  - intros j. simpl. destruct (decide (j = i)) as [->|Hne].
    + right. by rewrite list_lookup_total_insert_eq.
    + rewrite list_lookup_total_insert_ne by done. apply Hk.
Qed.



Lemma initial_state_flag cost_function target_value pop n q cmc :
  let st0 := {| population := pop; cost := replicate n quiet_NaN;
                target_attained := false; queries := q;
                current_minimum_cost := cmc; polls := 0; evals := [] |} in
  flag_tells target_value st0 ∧ scored_or_nan cost_function st0.
Proof.
  assert (∀ i, replicate n quiet_NaN !!! i = quiet_NaN) as Hnan.
  { intros i. rewrite list_lookup_total_alt.
    destruct (replicate n quiet_NaN !! i) as [c|] eqn:E; [|done].
    by apply lookup_replicate in E as [-> _]. }
  split.
  - unfold flag_tells. simpl. split; [done|]. intros [i Hi].
    rewrite Hnan in Hi. by apply hits_target_spec in Hi as [_ Hi].
  - intros i. left. simpl. by rewrite Hnan.
Qed.



Lemma run_return_slot
    G gen unif01 validate_bounds validate_initial_guess random_initial_population
    cost_function p target_value cancellation fuel schedule g q cmc x :
  let '(out, r) :=
    differential_evolution_run G gen unif01 validate_bounds validate_initial_guess
      random_initial_population cost_function p target_value cancellation
      fuel schedule g q cmc in
  out = Return x → x = population (final r) !!! min_element (cost (final r)).
Proof.
  unfold differential_evolution_run.
  destruct (validate_differential_evolution_parameters _ _ _); [done|].
  destruct (random_initial_population _ _ _ _) as [pop0 g0].
  destruct (generations _ _ _ _ _ _ _ _ _ _ _ _) as [[] r]; [|done].
  by intros [= <-].
Qed.



(** ** Stopping before the first generation *)

(** If the first read of the cancellation flag is true, or the cost function's
    value at some initial candidate is at or below the target value, the call
    returns after the initial phase: it generates no trial vector, whatever the
    fuel, leaves the generator where the initializer left it, and returns a
    member of the initial population, chosen by the final scan. *)
Theorem stops_before_first_generation
    G gen unif01 validate_bounds validate_initial_guess random_initial_population
    cost_function p target_value cancellation fuel schedule g q cmc :
  validate_differential_evolution_parameters validate_bounds validate_initial_guess p
    = None →
  (∃ observed, cancellation = Some observed ∧ observed 0 = true) ∨
  (∃ i, i < NP p ∧
        hits_target target_value
          (cost_function (initial_population random_initial_population p g !!! i))
        = true) →
  let '(out, r) :=
    differential_evolution_run G gen unif01 validate_bounds validate_initial_guess
      random_initial_population cost_function p target_value cancellation
      fuel schedule g q cmc in
  trials r = [] ∧
  rng r = (random_initial_population (lower_bounds p) (upper_bounds p) (NP p) g).2 ∧
  population (final r) = initial_population random_initial_population p g ∧
  out = Return (population (final r) !!! min_element (cost (final r))).
Proof.
  intros Hv Hstop. unfold differential_evolution_run, initial_population in *.
  rewrite Hv. apply validation_passed in Hv as (_ & _ & Hgen & Ht).
  destruct (random_initial_population _ _ _ _) as [pop0 g0]. simpl in Hstop.
  set (pop := match initial_guess p with Some x0 => <[0:=x0]> pop0 | None => pop0 end)
    in *.
  set (st0 := {| population := pop; cost := replicate (NP p) quiet_NaN;
                 target_attained := false; queries := q;
                 current_minimum_cost := cmc; polls := 0; evals := [] |}).
  set (st1 := phase (initial_iteration cost_function target_value) (threads p)
                (schedule 0) st0).
  assert (polls st1 = 0) as Hpolls.
  { by apply (phase_invariant (λ st, polls st = 0)). }
  destruct (initial_phase_costs cost_function target_value (threads p) (schedule 0)
              st0 Ht) as (Hpop & Hlen & Hcost).
  fold st1 in Hpop, Hlen, Hcost. simpl in Hpop, Hlen, Hcost.
  rewrite length_replicate in Hlen, Hcost.
  assert (flag_tells target_value st1) as Hflag.
  { apply (phase_guarded (λ st, flag_tells target_value st ∧
                                scored_or_nan cost_function st)).
    - intros i st. apply initial_iteration_flag.
    - apply initial_state_flag. }
  destruct (max_generations p) as [|n]; [lia|]. simpl.
  unfold poll_cancellation. rewrite Hpolls.
  assert ((∃ i, i < NP p ∧ hits_target target_value (cost_function (pop !!! i)) = true) →
          target_attained st1 = true) as Hset.
  { intros (i & Hi & Hhit). apply Hflag. exists i. by rewrite Hcost. }
  destruct cancellation as [observed|].
  - destruct (observed 0) eqn:E0; [done|]. simpl.
    destruct Hstop as [(o & [= <-] & Ho)|Hhit]; [congruence|].
    by rewrite (Hset Hhit).
  - destruct Hstop as [(o & [=] & _)|Hhit]. by rewrite (Hset Hhit).
Qed.

Lemma stops_before_first_generation_witness :
  let p := params_1d_guess in
  let tape := [eighth 5; eighth 1; eighth 2; eighth 3]%N in
  validate_differential_evolution_parameters Sample.validate_bounds
    Sample.validate_initial_guess p = None ∧
  ((∃ observed, Some (λ _ : nat, true) = Some observed ∧ observed 0 = true) ∨
   (∃ i, i < NP p ∧
         hits_target (of_Z 7)
           (sum_of_squares
              (initial_population (Sample.random_initial_population Replay.G Replay.gen)
                 p tape !!! i)) = true)) ∧
  let '(out, r) :=
    Replay.run_de sum_of_squares p (of_Z 7) (Some (λ _, true)) 0 (λ _, []) tape
      None None in
  trials r = [] ∧
  rng r = (Sample.random_initial_population Replay.G Replay.gen (lower_bounds p)
             (upper_bounds p) (NP p) tape).2 ∧
  population (final r) =
    initial_population (Sample.random_initial_population Replay.G Replay.gen) p tape ∧
  out = Return (population (final r) !!! min_element (cost (final r))).
Proof.
  intros p tape.
  assert (validate_differential_evolution_parameters Sample.validate_bounds
            Sample.validate_initial_guess p = None) as Hv by reflexivity.
  assert ((∃ observed, Some (λ _ : nat, true) = Some observed ∧ observed 0 = true) ∨
   (∃ i, i < NP p ∧
         hits_target (of_Z 7)
           (sum_of_squares
              (initial_population (Sample.random_initial_population Replay.G Replay.gen)
                 p tape !!! i)) = true)) as Hstop.
  { left. exists (λ _, true). split; reflexivity. }
  split; [exact Hv|]. split; [exact Hstop|].
  exact (stops_before_first_generation Replay.G Replay.gen
           (Sample.unif01 Replay.G Replay.gen) Sample.validate_bounds
           Sample.validate_initial_guess
           (Sample.random_initial_population Replay.G Replay.gen)
           sum_of_squares p (of_Z 7) (Some (λ _, true)) 0 (λ _, []) tape None None
           Hv Hstop).
Defined.

(** ** How often the cost function is called *)

Lemma filter_length_mono (P Q : nat → bool) l :
  (∀ k, k ∈ l → P k = true → Q k = true) →
  length (List.filter P l) ≤ length (List.filter Q l).
Proof.
  induction l as [|x l IH]; intros H; simpl; [done|].
  assert (length (List.filter P l) ≤ length (List.filter Q l)) as IH'.
  { apply IH. intros k Hk. apply H. by right. }
  destruct (P x) eqn:EP.
  - rewrite (H x) by (done || by left). simpl. lia.
  - destruct (Q x); simpl; lia.
Qed.

Lemma filter_length_all (P : nat → bool) l :
  (∀ k, k ∈ l → P k = true) → length (List.filter P l) = length l.
Proof.
  induction l as [|x l IH]; intros H; simpl; [done|].
  rewrite (H x) by (by left). simpl. rewrite IH; [done|].
  intros k Hk. apply H. by right.
Qed.

Lemma filter_length_one_more (P Q : nat → bool) l i :
  NoDup l → i ∈ l → P i = false → (∀ k, Q k = (k =? i) || P k) →
  length (List.filter Q l) = S (length (List.filter P l)).
Proof.
  intros Hnd Hi HP HQ. induction Hnd as [|x l Hx Hnd IH]; [by apply elem_of_nil in Hi|].
  apply elem_of_cons in Hi as [<-|Hi]; simpl.
  - rewrite HQ, Nat.eqb_refl, HP. simpl. f_equal.
    assert (List.filter Q l = List.filter P l) as ->; [|done].
    apply List.filter_ext_in. intros k Hk%list_elem_of_In. rewrite HQ.
    destruct (Nat.eqb_spec k i) as [->|]; done.
  - rewrite HQ. destruct (Nat.eqb_spec x i) as [->|Hne]; [done|]. simpl.
    destruct (P x); simpl; by rewrite IH.
Qed.

Section EvaluationCount.
Variable body : nat → state → bool * state.
Variable threads : nat.
(** [cost.size()] and the number of evaluations when the phase starts. *)
Variable n e0 : nat.

(** How many slots below [n] have been handled. *)
Definition handled (ws : workers) : nat :=
  length (List.filter (processed threads ws) (seq 0 n)).

Definition residues (ws : workers) : Prop :=
  ∀ w next, ws !! w = Some (Some next) → next mod threads = w.

(** An iteration keeps the size of [cost] and calls the cost function at most
    once; when it returns from the worker it has not called it. *)
Definition at_most_one_call : Prop :=
  ∀ i st, length (cost (body i st).2) = length (cost st) ∧
          length (evals (body i st).2) ≤ S (length (evals st)) ∧
          ((body i st).1 = false → evals (body i st).2 = evals st).

(** An iteration keeps the size of [cost], calls the cost function exactly
    once and goes on with the loop. *)
Definition exactly_one_call : Prop :=
  ∀ i st, length (cost (body i st).2) = length (cost st) ∧
          length (evals (body i st).2) = S (length (evals st)) ∧
          (body i st).1 = true.

Lemma processed_advance ws w i k :
  0 < threads → ws !! w = Some (Some i) → i mod threads = w →
  processed threads (<[w := Some (i + threads)]> ws) k =
  (k =? i) || processed threads ws k.
Proof.
  intros Ht Ew Hi. assert (w < length ws) as Hw by (by eapply lookup_lt_Some).
  unfold processed. destruct (decide (k mod threads = w)) as [Hk|Hk].
  - rewrite Hk, list_lookup_insert_eq, Ew by done.
    apply same_residue_next; [done|congruence].
  - rewrite list_lookup_insert_ne by done.
    destruct (Nat.eqb_spec k i) as [->|]; [congruence|done].
Qed.

Lemma processed_leave ws w k :
  processed threads ws k = true → processed threads (<[w := None]> ws) k = true.
Proof.
  unfold processed. destruct (decide (k mod threads = w)) as [Hk|Hk].
  - destruct (ws !! (k mod threads)) as [o|] eqn:E; [|done]. intros _.
    rewrite Hk in *. rewrite list_lookup_insert_eq; [done|by eapply lookup_lt_Some].
  - by rewrite list_lookup_insert_ne by done.
Qed.

Lemma processed_leave_at_end ws w i k :
  ws !! w = Some (Some i) → n ≤ i → k < n →
  processed threads (<[w := None]> ws) k = processed threads ws k.
Proof.
  intros Ew Hi Hk. unfold processed.
  destruct (decide (k mod threads = w)) as [Hkw|Hkw].
  - rewrite Hkw, list_lookup_insert_eq, Ew by (by eapply lookup_lt_Some).
    symmetry. apply Nat.ltb_lt. lia.
  - by rewrite list_lookup_insert_ne by done.
Qed.

Lemma step_worker_residues w c :
  residues c.1 → residues (step_worker body threads w c).1.
Proof.
  destruct c as [ws st]. unfold step_worker. simpl. intros Hres.
  destruct (ws !! w) as [[i|]|] eqn:Ew; try done.
  assert (w < length ws) as Hw by (by eapply lookup_lt_Some).
  pose proof (Hres _ _ Ew) as Hi.
  assert (∀ o, (o = None ∨ o = Some (i + threads)) → residues (<[w := o]> ws)) as Hins.
  { intros o Ho w' next. destruct (decide (w = w')) as [<-|Hne].
    - rewrite list_lookup_insert_eq by done.
      destruct Ho as [-> | ->]; [done|]. intros [= <-]. rewrite <- Hi.
      replace (i + threads) with (i + 1 * threads) by lia. apply Nat.Div0.mod_add.
    - rewrite list_lookup_insert_ne by done. apply Hres. }
  destruct (i <? _); [destruct (body i st) as [[] st']|]; simpl; apply Hins; auto.
Qed.

Definition counted_at_most (c : workers * state) : Prop :=
  residues c.1 ∧ length (cost c.2) = n ∧ length (evals c.2) ≤ e0 + handled c.1.

Definition counted_exactly (c : workers * state) : Prop :=
  residues c.1 ∧ length (cost c.2) = n ∧ length (evals c.2) = e0 + handled c.1.

Lemma handled_advance ws w i :
  0 < threads → ws !! w = Some (Some i) → i mod threads = w → i < n →
  handled (<[w := Some (i + threads)]> ws) = S (handled ws).
Proof.
  intros Ht Ew Hi Hin. unfold handled.
  apply (filter_length_one_more _ _ _ i).
  - apply NoDup_seq.
  - apply elem_of_seq. lia.
  - unfold processed. rewrite Hi, Ew. apply Nat.ltb_irrefl.
  - intros k. by apply processed_advance.
Qed.

Lemma step_worker_counted_at_most w c :
  at_most_one_call → 0 < threads →
  counted_at_most c → counted_at_most (step_worker body threads w c).
Proof.
  intros Hbody Ht (Hres & Hlen & Hev).
  split; [by apply step_worker_residues|].
  destruct c as [ws st]. unfold step_worker. simpl in *.
  destruct (ws !! w) as [[i|]|] eqn:Ew; try done.
  pose proof (Hres _ _ Ew) as Hi.
  assert (handled ws ≤ handled (<[w := None]> ws)) as Hleave.
  { apply filter_length_mono. intros k _. apply processed_leave. }
  destruct (Nat.ltb_spec i (length (cost st))) as [Hin|Hin].
  - destruct (Hbody i st) as (Hc & He & Hgo).
    destruct (body i st) as [[] st']; simpl in *.
    + split; [lia|]. rewrite handled_advance by (done || lia). lia.
    + split; [lia|]. rewrite (Hgo eq_refl). lia.
  - simpl. split; [done|lia].
Qed.

Lemma step_worker_counted_exactly w c :
  exactly_one_call → 0 < threads →
  counted_exactly c → counted_exactly (step_worker body threads w c).
Proof.
  intros Hbody Ht (Hres & Hlen & Hev).
  split; [by apply step_worker_residues|].
  destruct c as [ws st]. unfold step_worker. simpl in *.
  destruct (ws !! w) as [[i|]|] eqn:Ew; try done.
  pose proof (Hres _ _ Ew) as Hi.
  destruct (Nat.ltb_spec i (length (cost st))) as [Hin|Hin].
  - destruct (Hbody i st) as (Hc & He & Hgo).
    destruct (body i st) as [go st']; simpl in *. subst go.
    split; [lia|]. rewrite handled_advance by (done || lia). lia.
  - simpl. split; [done|]. rewrite Hev. f_equal. unfold handled.
    apply (f_equal (@length nat)), List.filter_ext_in.
    intros k Hk%list_elem_of_In%elem_of_seq.
    symmetry. apply (processed_leave_at_end ws w i k); [done|lia|lia].
Qed.

Lemma schedule_invariant (Inv : workers * state → Prop) schedule c :
  (∀ w c, Inv c → Inv (step_worker body threads w c)) →
  Inv c →
  Inv (foldl (λ acc w, step_worker body threads w acc) c schedule).
Proof.
  intros Hstep. revert c.
  induction schedule as [|w l IH]; intros c H; simpl; [done|]. by apply IH, Hstep.
Qed.

Lemma steps_invariant (Inv : workers * state → Prop) schedule c :
  (∀ w c, Inv c → Inv (step_worker body threads w c)) →
  Inv c →
  Inv (join body threads (foldl (λ acc w, step_worker body threads w acc) c schedule)).
Proof.
  intros Hstep H. unfold join.
  assert (∀ m w c, Inv c → Inv (run_worker m body threads w c)) as Hrun.
  { intros m w. induction m as [|m IH]; intros c' Hc'; simpl; [done|].
    by apply IH, Hstep. }
  set (c1 := foldl _ c schedule).
  assert (Inv c1) as H1.
  { unfold c1. clear c1. revert c H.
    induction schedule as [|w l IH]; intros c H; simpl; [done|]. by apply IH, Hstep. }
  generalize (S (length (cost c1.2))). intros m. revert H1. generalize c1.
  induction (seq 0 threads) as [|w l IH]; intros c' H'; simpl; [done|].
  by apply IH, Hrun.
Qed.

Lemma join_all_ahead c :
  0 < threads → length c.1 = threads →
  ∀ w, w < threads →
       ahead (S (length (cost c.2))) (join body threads c).1 w.
Proof.
  intros Ht Hlen. unfold join. set (m := S (length (cost c.2))).
  assert (∀ l c', length c'.1 = threads → Forall (λ w, w < threads) l →
            let c'' := foldl (λ acc w, run_worker m body threads w acc) c' l in
            (∀ w, ahead m c'.1 w → ahead m c''.1 w) ∧ Forall (ahead m c''.1) l) as H.
  { induction l as [|w l IH]; intros c' Hl' Hl; simpl; [by split|].
    apply Forall_cons in Hl as [Hw Hl].
    destruct (IH (run_worker m body threads w c')) as [IH1 IH2]; [|done|].
    { by rewrite run_worker_length. }
    split.
    - intros w' H'. by apply IH1, run_worker_ahead.
    - constructor; [|done]. apply IH1.
      destruct (lookup_lt_is_Some_2 c'.1 w) as [[next|] Hnext]; [lia| |].
      + apply (run_worker_ahead_self body threads m w 0 c' Ht).
        right. exists next. split; [done|lia].
      + apply run_worker_ahead. by left. }
  destruct (H (seq 0 threads) c Hlen) as [_ Hall]; [apply Forall_seq; lia|].
  intros w Hw. rewrite Forall_seq in Hall. apply Hall. lia.
Qed.

Lemma steps_length schedule c :
  length (foldl (λ acc w, step_worker body threads w acc) c schedule).1 = length c.1.
Proof.
  revert c. induction schedule as [|w l IH]; intros c; simpl; [done|].
  by rewrite IH, step_worker_length.
Qed.

Lemma spawn_counted st :
  length (cost st) = n → length (evals st) = e0 →
  residues (spawn threads) ∧ handled (spawn threads) = 0.
Proof.
  intros Hn He. split.
  - intros w next Hw. assert (w < threads) as Hlt.
    { apply lookup_lt_Some in Hw. by rewrite spawn_length in Hw. }
    rewrite spawn_lookup in Hw by done. injection Hw as <-. by apply Nat.mod_small.
  - unfold handled. destruct (decide (0 < threads)) as [Ht|Ht].
    + rewrite (List.filter_ext_in _ (λ _, false)); [by rewrite List.filter_false|].
      intros k _. unfold processed.
      rewrite spawn_lookup by (apply Nat.mod_upper_bound; lia).
      apply Nat.ltb_ge, Nat.Div0.mod_le.
    + rewrite (List.filter_ext_in _ (λ _, false)); [by rewrite List.filter_false|].
      intros k _. unfold processed. replace threads with 0 by lia. done.
Qed.

Lemma phase_calls_at_most schedule st :
  at_most_one_call → 0 < threads →
  length (cost st) = n → length (evals st) = e0 →
  let st' := phase body threads schedule st in
  length (cost st') = n ∧ length (evals st') ≤ e0 + n.
Proof.
  intros Hbody Ht Hn He. unfold phase.
  destruct (spawn_counted st Hn He) as [Hres H0].
  destruct (steps_invariant counted_at_most schedule (spawn threads, st))
    as (_ & Hlen & Hev).
  { intros w c. by apply step_worker_counted_at_most. }
  { split; [done|]. split; [done|]. simpl. lia. }
  split; [done|]. etrans; [exact Hev|]. apply Nat.add_le_mono_l.
  unfold handled. etrans; [apply List.filter_length_le|]. by rewrite length_seq.
Qed.

Lemma phase_calls_exactly schedule st :
  exactly_one_call → 0 < threads →
  length (cost st) = n → length (evals st) = e0 →
  length (evals (phase body threads schedule st)) = e0 + n.
Proof.
  intros Hbody Ht Hn He. unfold phase.
  destruct (spawn_counted st Hn He) as [Hres H0].
  set (c := foldl (λ acc w, step_worker body threads w acc) (spawn threads, st) schedule).
  destruct (steps_invariant counted_exactly schedule (spawn threads, st))
    as (_ & Hlen & Hev).
  { intros w c'. by apply step_worker_counted_exactly. }
  { split; [done|]. split; [done|]. simpl. lia. }
  fold c in Hlen, Hev. rewrite Hev. f_equal.
  assert (length (cost c.2) = n) as Hc.
  { destruct (schedule_invariant counted_exactly schedule (spawn threads, st))
      as (_ & Hc & _); [| |done].
    - intros w c'. by apply step_worker_counted_exactly.
    - split; [done|]. split; [done|]. simpl. lia. }
  unfold handled. rewrite filter_length_all; [by rewrite length_seq|].
  intros k Hk%elem_of_seq.
  assert (length c.1 = threads) as Hws.
  { unfold c. rewrite steps_length. apply spawn_length. }
  pose proof (join_all_ahead c Ht Hws (k mod threads)) as Ha.
  unfold processed.
  destruct Ha as [->|(next & -> & Hnext)]; [apply Nat.mod_upper_bound; lia|done|].
  apply Nat.ltb_lt. lia.
Qed.
End EvaluationCount.

Lemma initial_iteration_one_call cost_function target_value :
  exactly_one_call (initial_iteration cost_function target_value).
Proof.
  intros i st. simpl. rewrite length_insert, length_app. simpl.
  repeat split; lia.
Qed.

Lemma trial_iteration_one_call cost_function target_value cancellation trial_vectors :
  at_most_one_call
    (trial_iteration cost_function target_value cancellation trial_vectors).
Proof.
  intros i st. unfold trial_iteration, poll_cancellation.
  destruct (target_attained st); [simpl; repeat split; lia|].
  assert (∀ st1, length (cost st1) = length (cost st) → evals st1 = evals st →
    length (cost (select cost_function target_value trial_vectors i st1))
      = length (cost st) ∧
    length (evals (select cost_function target_value trial_vectors i st1))
      ≤ S (length (evals st))) as Hsel.
  { intros st1 Hc He. unfold select. destruct (isnan _); simpl.
    - rewrite length_app, He, Hc. simpl. lia.
    - destruct (flt _ _ || isnan _); simpl;
        rewrite ?length_insert, length_app, He, Hc; simpl; lia. }
  destruct cancellation as [observed|]; [destruct (observed _)|]; cbn [fst snd].
  - simpl. repeat split; lia.
  - destruct (Hsel {| population := population st; cost := cost st;
                      target_attained := false; queries := queries st;
                      current_minimum_cost := current_minimum_cost st;
                      polls := S (polls st); evals := evals st |}) as [? ?];
      try done.
  - destruct (Hsel st) as [? ?]; try done.
Qed.

(** With at least one thread, under every schedule, the initial phase calls
    the cost function exactly once for every slot: [cost.size()] calls. *)
Theorem initial_phase_calls_once_per_slot
    cost_function target_value threads schedule st :
  0 < threads →
  length (evals (phase (initial_iteration cost_function target_value)
                   threads schedule st)) =
  length (evals st) + length (cost st).
Proof.
  intros Ht.
  by apply (phase_calls_exactly (initial_iteration cost_function target_value)
              threads (length (cost st)) (length (evals st)) schedule st
              (initial_iteration_one_call cost_function target_value) Ht).
Qed.

Lemma initial_phase_calls_witness :
  let st := {| population := [[of_Z 1]; [of_Z 2]; [of_Z 3]];
               cost := replicate 3 quiet_NaN; target_attained := false;
               queries := None; current_minimum_cost := None; polls := 0;
               evals := [] |} in
  0 < 2 ∧
  length (evals (phase (initial_iteration sum_of_squares quiet_NaN) 2 [1; 1; 0] st)) =
  length (evals st) + length (cost st).
Proof.
  intros st. assert (0 < 2) as H by lia. split; [exact H|].
  exact (initial_phase_calls_once_per_slot sum_of_squares quiet_NaN 2 [1; 1; 0] st H).
Defined.

Section Budget.
Variable G : Type.
Variable gen : G → N * G.
Variable unif01 : G → Real * G.
Variable cost_function : list Real → Real.
Variable p : differential_evolution_parameters.
Variable target_value : Real.
Variable cancellation : option (nat → bool).

Lemma generations_budget fuel schedule n generation (r : run G) :
  0 < threads p →
  length (cost (final r)) = NP p →
  length (evals (final r)) ≤ NP p * S (length (trials r)) →
  let r' := (generations G gen unif01 cost_function p target_value cancellation
               fuel schedule n generation r).2 in
  length (trials r') ≤ length (trials r) + n ∧
  length (evals (final r')) ≤ NP p * S (length (trials r')).
Proof.
  intros Ht. revert generation r.
  induction n as [|n IH]; intros generation r Hc He; simpl; [split; [lia|done]|].
  assert (length (cost (poll_cancellation cancellation (final r)).2) = NP p ∧
          evals (poll_cancellation cancellation (final r)).2 = evals (final r))
    as [Hc1 He1].
  { unfold poll_cancellation. by destruct cancellation. }
  destruct (poll_cancellation cancellation (final r)) as [[] st1]; simpl in *.
  { rewrite He1. split; [lia|done]. }
  destruct (target_attained st1).
  { simpl. rewrite He1. split; [lia|done]. }
  destruct (make_trials _ _ _ _ _ _ _ _) as [[tv g']|].
  2: { simpl. rewrite He1. split; [lia|done]. }
  destruct (phase_calls_at_most
              (trial_iteration cost_function target_value cancellation tv)
              (threads p) (NP p) (length (evals st1)) (schedule (S generation)) st1
              (trial_iteration_one_call _ _ _ _) Ht Hc1 eq_refl) as [Hc2 He2].
  destruct (IH (S generation)
              {| final := phase (trial_iteration cost_function target_value
                                   cancellation tv) (threads p)
                            (schedule (S generation)) st1;
                 rng := g'; trials := trials r ++ [tv] |}) as [IH1 IH2].
  - done.
  - simpl. rewrite length_app. simpl. rewrite He1 in He2. nia.
  - simpl in IH1. rewrite length_app in IH1. simpl in IH1. split; [lia|done].
Qed.
End Budget.

(** The call never runs more generations than [max_generations], and it calls
    the cost function at most NP times per evaluation phase: at most
    NP * (1 + number of generations run) times in all. *)
Theorem evaluation_budget
    G gen unif01 validate_bounds validate_initial_guess random_initial_population
    cost_function p target_value cancellation fuel schedule g q cmc :
  let r := (differential_evolution_run G gen unif01 validate_bounds
              validate_initial_guess random_initial_population cost_function p
              target_value cancellation fuel schedule g q cmc).2 in
  length (trials r) ≤ max_generations p ∧
  length (evals (final r)) ≤ NP p * S (length (trials r)) ∧
  length (evals (final r)) ≤ NP p * S (max_generations p).
Proof.
  intros r.
  assert (length (trials r) ≤ max_generations p ∧
          length (evals (final r)) ≤ NP p * S (length (trials r))) as [H1 H2].
  { unfold r, differential_evolution_run.
    destruct (validate_differential_evolution_parameters _ _ _) eqn:Ev.
    { simpl. lia. }
    apply validation_passed in Ev as (_ & _ & _ & Ht).
    destruct (random_initial_population _ _ _ _) as [pop0 g0].
    match goal with
    | |- context [generations ?G ?gen ?u ?f ?p ?t ?c ?fu ?s ?n ?k ?r] =>
        pose proof (generations_budget G gen u f p t c fu s n k r Ht) as H;
        destruct (generations G gen u f p t c fu s n k r) as [finished r']
    end.
    simpl in *. apply H.
    - apply (phase_invariant (λ st, length (cost st) = NP p)).
      + intros i st Hst. simpl. by rewrite length_insert.
      + simpl. by rewrite length_replicate.
    - rewrite (phase_calls_exactly _ _ (NP p) 0); [lia|apply initial_iteration_one_call|done|simpl; by rewrite length_replicate|done]. }
  split; [done|]. split; [done|]. nia.
Qed.

(** ** The result is no worse than the initial candidates *)

Lemma run_improves_on_initial
    G gen unif01 validate_bounds validate_initial_guess random_initial_population
    cost_function p target_value cancellation fuel schedule g q cmc :
  validate_differential_evolution_parameters validate_bounds validate_initial_guess p
    = None →
  let st := final (differential_evolution_run G gen unif01 validate_bounds
                     validate_initial_guess random_initial_population cost_function p
                     target_value cancellation fuel schedule g q cmc).2 in
  length (cost st) = NP p ∧
  ∀ i, i < NP p →
       improves (cost_function (initial_population random_initial_population p g !!! i))
         (cost st !!! i).
Proof.
  intros Hv. unfold differential_evolution_run, initial_population.
  rewrite Hv. apply validation_passed in Hv as (_ & _ & _ & Ht).
  destruct (random_initial_population _ _ _ _) as [pop0 g0]. simpl.
  set (pop := match initial_guess p with Some x0 => <[0:=x0]> pop0 | None => pop0 end).
  set (st0 := {| population := pop; cost := replicate (NP p) quiet_NaN;
                 target_attained := false; queries := q;
                 current_minimum_cost := cmc; polls := 0; evals := [] |}).
  set (st1 := phase (initial_iteration cost_function target_value) (threads p)
                (schedule 0) st0).
  destruct (initial_phase_costs cost_function target_value (threads p) (schedule 0)
              st0 Ht) as (_ & Hlen & Hcost).
  fold st1 in Hlen, Hcost. simpl in Hlen, Hcost.
  rewrite length_replicate in Hlen, Hcost.
  match goal with
  | |- context [generations ?G ?gen ?u ?f ?p ?t ?c ?fu ?s ?n ?k ?r] =>
      pose proof (generations_invariant G gen u f p t c (costs_improve st1)
                    fu s n k r) as H;
      destruct (generations G gen u f p t c fu s n k r) as [finished r']
  end.
  simpl in *. destruct H as [Hl Himp].
  - intros st Hst. eapply costs_improve_trans; [exact Hst|].
    apply costs_improve_same. unfold poll_cancellation. by destruct cancellation.
  - intros tv i st Hst _. eapply costs_improve_trans; [exact Hst|].
    apply trial_iteration_costs_improve.
  - apply costs_improve_refl.
  - split; [congruence|]. intros i Hi. rewrite <- Hcost by done. apply Himp.
Qed.

(** If the call returns and the cost function's value at the first initial
    candidate (the initial guess, when one is given) is a number, then its
    value at the returned candidate is less than or equal to its value at every
    initial candidate where that value is a number (given an initializer that
    returns NP candidates). *)
Theorem result_no_worse_than_initial_candidates
    G gen unif01 validate_bounds validate_initial_guess random_initial_population
    cost_function p target_value cancellation fuel schedule g q cmc x :
  length (random_initial_population (lower_bounds p) (upper_bounds p) (NP p) g).1
    = NP p →
  differential_evolution G gen unif01 validate_bounds validate_initial_guess
    random_initial_population cost_function p target_value cancellation
    fuel schedule g q cmc = Return x →
  isnan (cost_function (initial_population random_initial_population p g !!! 0))
    = false →
  ∀ i, i < NP p →
    isnan (cost_function (initial_population random_initial_population p g !!! i))
      = false →
    fle (cost_function x)
        (cost_function (initial_population random_initial_population p g !!! i)) = true.
Proof.
  intros Hlen Hret H0 i Hi Hnum. unfold differential_evolution in Hret.
  assert (validate_differential_evolution_parameters validate_bounds
            validate_initial_guess p = None) as Hv.
  { unfold differential_evolution_run in Hret.
    by destruct (validate_differential_evolution_parameters _ _ _). }
  pose proof (validation_passed _ _ _ Hv) as (HNP & _).
  pose proof (run_improves_on_initial G gen unif01 validate_bounds
                validate_initial_guess random_initial_population cost_function p
                target_value cancellation fuel schedule g q cmc Hv) as [Hn Himp].
  pose proof (run_in_step G gen unif01 validate_bounds validate_initial_guess
                random_initial_population cost_function p target_value cancellation
                fuel schedule g q cmc Hlen) as [_ Hstep].
  pose proof (run_return_slot G gen unif01 validate_bounds validate_initial_guess
                random_initial_population cost_function p target_value cancellation
                fuel schedule g q cmc x) as Hslot.
  destruct (differential_evolution_run _ _ _ _ _ _ _ _ _ _ _ _ _ _ _) as [out r].
  simpl in *. rewrite (Hslot Hret).
  destruct (cost (final r)) as [|c l] eqn:Ec; [simpl in Hn; lia|].
  assert (isnan c = false) as Hc.
  { pose proof (Himp 0 ltac:(lia)) as H. simpl in H. by eapply improves_not_nan. }
  destruct (min_element_least c l Hc) as (m & Hk & _ & Hle & _).
  rewrite <- Ec in *.
  rewrite <- Hstep by (by eapply lookup_lt_Some).
  rewrite (list_lookup_total_correct _ _ _ Hk).
  eapply fle_trans; [|apply (improves_le _ _ (Himp i Hi) Hnum)].
  apply (Hle i); [apply list_lookup_lookup_total_lt; lia|].
  exact (improves_not_nan _ _ (Himp i Hi) Hnum).
Qed.

Lemma result_no_worse_witness :
  let p := params_2d_guess in
  let g := (2 ^ 29)%N in
  let rip := Sample.random_initial_population Counter.G Counter.gen in
  let x := [S754_finite false 9007199221186560 (-53);
            S754_finite false 9007199221186560 (-53)] in
  length (rip (lower_bounds p) (upper_bounds p) (NP p) g).1 = NP p ∧
  differential_evolution Counter.G Counter.gen (Sample.unif01 Counter.G Counter.gen)
    Sample.validate_bounds Sample.validate_initial_guess rip
    sum_of_squares p quiet_NaN None 8 (λ _, []) g None None = Return x ∧
  isnan (sum_of_squares (initial_population rip p g !!! 0)) = false ∧
  ∀ i, i < NP p →
    isnan (sum_of_squares (initial_population rip p g !!! i)) = false →
    fle (sum_of_squares x) (sum_of_squares (initial_population rip p g !!! i)) = true.
Proof.
  intros p g rip x.
  assert (length (rip (lower_bounds p) (upper_bounds p) (NP p) g).1 = NP p) as H1
    by reflexivity.
  assert (differential_evolution Counter.G Counter.gen
            (Sample.unif01 Counter.G Counter.gen)
            Sample.validate_bounds Sample.validate_initial_guess rip
            sum_of_squares p quiet_NaN None 8 (λ _, []) g None None = Return x) as H2
    by (vm_compute; reflexivity).
  assert (isnan (sum_of_squares (initial_population rip p g !!! 0)) = false) as H3
    by (vm_compute; reflexivity).
  split; [exact H1|]. split; [exact H2|]. split; [exact H3|].
  exact (result_no_worse_than_initial_candidates Counter.G Counter.gen
           (Sample.unif01 Counter.G Counter.gen) Sample.validate_bounds
           Sample.validate_initial_guess rip sum_of_squares p quiet_NaN None 8
           (λ _, []) g None None x H1 H2 H3).
Defined.

(** ** One dimension *)

(** When the problem has one dimension, [gen() % dimension] is always 0, the
    only index there is: the trial vector is the clamped mutant whatever the
    crossover probability and the uniform draw are. *)
Theorem one_dimension_always_takes_mutant
    G gen unif01 p pop i r1 r2 r3 g :
  length (lower_bounds p) = 1 →
  (crossover G gen unif01 p pop i r1 r2 r3 (seq 0 (length (lower_bounds p))) g).1 =
  [clamp (fadd (at2 pop r1 0)
            (fmul (mutation_factor p) (fsub (at2 pop r2 0) (at2 pop r3 0))))
     (lower_bounds p !!! 0) (upper_bounds p !!! 0)].
Proof.
  intros Hd. rewrite Hd. cbn [seq crossover].
  destruct (gen g) as [v g1]. destruct (unif01 g1) as [u g2].
  rewrite Hd. change (N.of_nat 1) with 1%N. rewrite N.mod_1_r.
  cbn [N.to_nat Nat.eqb fst]. by rewrite orb_true_r.
Qed.

Lemma one_dimension_witness :
  length (lower_bounds params_1d) = 1 ∧
  (crossover Replay.G Replay.gen (Sample.unif01 Replay.G Replay.gen) params_1d
     [[of_Z 0]; [of_Z 1]; [of_Z 2]; [of_Z 3]] 0 1 2 3
     (seq 0 (length (lower_bounds params_1d))) [7; eighth 7]%N).1 =
  [clamp (fadd (at2 [[of_Z 0]; [of_Z 1]; [of_Z 2]; [of_Z 3]] 1 0)
            (fmul (mutation_factor params_1d)
               (fsub (at2 [[of_Z 0]; [of_Z 1]; [of_Z 2]; [of_Z 3]] 2 0)
                     (at2 [[of_Z 0]; [of_Z 1]; [of_Z 2]; [of_Z 3]] 3 0))))
     (lower_bounds params_1d !!! 0) (upper_bounds params_1d !!! 0)].
Proof.
  assert (length (lower_bounds params_1d) = 1) as H by reflexivity.
  split; [exact H|].
  exact (one_dimension_always_takes_mutant Replay.G Replay.gen
           (Sample.unif01 Replay.G Replay.gen) params_1d
           [[of_Z 0]; [of_Z 1]; [of_Z 2]; [of_Z 3]] 0 1 2 3 [7; eighth 7]%N H).
Defined.
